(** * desktop-trampoline: the client of the trampoline protocol

    A shallow embedding of [src/desktop-trampoline.c].  The C functions
    [isValidEnvVar], [readDelimitedString], [runTrampolineClient] and [main]
    are rendered as Rocq functions of the same names.  Everything the program
    does to the outside (the socket, standard input, the two output streams)
    goes through a small monad that threads a [world] (the answers the
    operating system and the peer will give) and accumulates a log of
    [event]s in the order the calls are made. *)

From Stdlib Require Import ZArith String Ascii Bool Lia DecimalString List Sorted.
Import ListNotations.
Local Open Scope Z_scope.

(** ** Bytes and C strings *)

(** A [char] is an 8-bit [ascii]; a buffer is a list of them.  A [char *]
    argument is modelled by the bytes stored at the pointer; the terminating
    zero byte is implicit at the end of the list (a zero byte inside the list
    terminates the C string earlier, as it does in memory). *)
Definition bytes : Type := list ascii.

Definition NUL : ascii := Ascii.zero.

Definition lit (s : string) : bytes := list_ascii_of_string s.

Definition uchar (c : ascii) : Z := Z.of_N (N_of_ascii c).

Module Libc.

(** [strlen]: the number of bytes before the first zero byte. *)
Fixpoint strlen (s : bytes) : nat :=
  match s with
  | [] => 0
  | c :: r => if Ascii.eqb c NUL then 0 else S (strlen r)
  end.

(** [s[i]] for an index inside the string or at its terminator. *)
Definition char_at (s : bytes) (i : nat) : ascii := nth i s NUL.

(** [strncmp]: compares at most [n] characters and stops after a common
    zero byte; the result is the difference of the first two characters
    that differ, as unsigned chars. *)
Fixpoint strncmp (a b : bytes) (n : nat) : Z :=
  match n with
  | O => 0
  | S n' =>
      let ca := hd NUL a in
      let cb := hd NUL b in
      if Ascii.eqb ca cb
      then if Ascii.eqb ca NUL then 0 else strncmp (tl a) (tl b) n'
      else uchar ca - uchar cb
  end.

(** The characters of a C string: what ["%s"] prints. *)
Definition cstr (s : bytes) : bytes := firstn (strlen s) s.

(** [getenv]: the value of the first entry [name=value] of the
    environment. *)
Fixpoint getenv (name : bytes) (environ : list bytes) : option bytes :=
  match environ with
  | [] => None
  | e :: r =>
      if (strncmp e name (strlen name) =? 0)
         && Ascii.eqb (char_at e (strlen name)) "="
      then Some (skipn (S (strlen name)) e)
      else getenv name r
  end.

Definition isspace (c : ascii) : bool :=
  let n := uchar c in (n =? 32) || ((9 <=? n) && (n <=? 13)).

Definition isdigit (c : ascii) : bool :=
  let n := uchar c in (48 <=? n) && (n <=? 57).

Fixpoint skip_spaces (s : bytes) : bytes :=
  match s with
  | c :: r => if isspace c then skip_spaces r else s
  | [] => []
  end.

Fixpoint digits_value (s : bytes) (acc : Z) : Z :=
  match s with
  | c :: r => if isdigit c then digits_value r (acc * 10 + (uchar c - 48))
              else acc
  | [] => acc
  end.

(** [atoi]: optional white space, an optional sign, then the longest run
    of decimal digits; 0 when there is none.  The C standard leaves values
    outside [int] undefined; the mathematical value is kept here. *)
Definition atoi (s : bytes) : Z :=
  match skip_spaces s with
  | c :: r =>
      if Ascii.eqb c "-" then - digits_value r 0
      else if Ascii.eqb c "+" then digits_value r 0
      else digits_value (c :: r) 0
  | [] => 0
  end.

(** [snprintf(buf, MAXIMUM_NUMBER_LENGTH, "%d", n)]: an [int] has at most
    11 characters, so the 33-byte buffer never truncates it. *)
Definition decimal (n : Z) : bytes := lit (NilZero.string_of_int (Z.to_int n)).

End Libc.
Import Libc.

(** Conversion to [unsigned short] and arithmetic in [size_t] (64 bits on
    the LP64 and LLP64 targets of the trampoline). *)
Definition to_ushort (n : Z) : Z := n mod 65536.

Definition SIZE_MODULUS : Z := 2 ^ 64.

Definition size_add (a b : Z) : Z := (a + b) mod SIZE_MODULUS.

(** ** Constants and the allow-list *)

Definition BUFFER_LENGTH : nat := 4096.

Definition NUMBER_OF_VALID_ENV_VARS : nat := 4.

Definition sValidEnvVars : list bytes :=
  [ lit "DESKTOP_TRAMPOLINE_IDENTIFIER";
    lit "DESKTOP_TRAMPOLINE_TOKEN";
    lit "DESKTOP_USERNAME";
    lit "DESKTOP_ENDPOINT" ].

(** The test of one candidate, lines 38-40. *)
Definition matchesCandidate (env candidate : bytes) : bool :=
  (strncmp env candidate (strlen candidate) =? 0)
  && (strlen candidate <? strlen env)%nat
  && Ascii.eqb (char_at env (strlen candidate)) "=".

(** The loop over the table, from the entry at hand to its end. *)
Fixpoint isValidEnvVar_loop (candidates : list bytes) (env : bytes) : Z :=
  match candidates with
  | [] => 0
  | candidate :: rest =>
      if matchesCandidate env candidate then 1
      else isValidEnvVar_loop rest env
  end.

Definition isValidEnvVar (env : bytes) : Z :=
  isValidEnvVar_loop sValidEnvVars env.

(** ** The outside world *)

(** Modelled from the spec: the type [SOCKET] and the constant
    [INVALID_SOCKET] of socket.h, which is not among the sources.  A socket
    is a handle; [INVALID_SOCKET] is the value [openSocket] returns when it
    fails, the one [main] compares with before it closes. *)
Inductive SOCKET : Type :=
| INVALID_SOCKET
| Handle (fd : Z).

(** What a byte source has in store: a failing read, or a segment of bytes
    that becomes available at once. *)
Inductive segment : Type :=
| RdErr
| RdData (bs : bytes).

(** The answers of the environment.  [w_writeSocket] lists the values the
    successive calls of [writeSocket] return (0 once the list is used up);
    [w_stdin] and [w_socket] are what standard input and the peer deliver. *)
Record world : Type := mkWorld {
  w_initializeNetwork : Z;
  w_openSocket : SOCKET;
  w_connectSocket : Z;
  w_writeSocket : list Z;
  w_stdin : list segment;
  w_socket : list segment
}.

(** The call sites of [writeSocket] in [runTrampolineClient]. *)
Inductive site : Type :=
| SiteArgc | SiteArg | SiteEnvc | SiteEnv | SiteStdin | SiteTerminator.

Inductive event : Type :=
| EvInitializeNetwork (r : Z)
| EvOpenSocket (s : SOCKET)
| EvConnect (s : SOCKET) (port : Z) (r : Z)
| EvWrite (s : SOCKET) (at_ : site) (data : bytes) (r : Z)
| EvReadStdin (len : nat) (r : option bytes)
| EvRecv (s : SOCKET) (len : nat) (r : option bytes)
| EvStdout (text : bytes)
| EvStderr (text : bytes)
| EvSocketError (msg : bytes)
| EvClose (s : SOCKET)
| EvTerminateNetwork.

(** One read of at most [len] bytes from a byte source: [None] is the
    result -1, [Some bs] delivers [bs] (no more than [len] bytes, and
    nothing once the source is exhausted). *)
Definition take (src : list segment) (len : nat)
  : option bytes * list segment :=
  match src with
  | [] => (Some [], [])
  | RdErr :: rest => (None, rest)
  | RdData bs :: rest =>
      if (length bs <=? len)%nat then (Some bs, rest)
      else (Some (firstn len bs), RdData (skipn len bs) :: rest)
  end.

(** ** The monad: state, log, early return *)

(** How a piece of code stops short of its end: a [return] statement, a
    store outside an array, a load of an element never stored, or the
    recursion bound of the model. *)
Inductive stop : Type :=
| Return (code : Z)
| OutOfBounds (idx : nat)
| Uninitialised (idx : nat)
| OutOfFuel.

Inductive outcome (A : Type) : Type :=
| Val (a : A)
| Stop (s : stop).
Arguments Val {A} a.
Arguments Stop {A} s.

Definition M (A : Type) : Type := world -> outcome A * world * list event.

Definition ret {A} (a : A) : M A := fun w => (Val a, w, []).

Definition halt {A} (s : stop) : M A := fun w => (Stop s, w, []).

Definition bind {A B} (m : M A) (f : A -> M B) : M B :=
  fun w =>
    match m w with
    | (Val a, w1, l1) =>
        match f a w1 with
        | (r, w2, l2) => (r, w2, l1 ++ l2)
        end
    | (Stop s, w1, l1) => (Stop s, w1, l1)
    end.

Declare Scope prog_scope.
Delimit Scope prog_scope with prog.
Notation "x <- m ;; k" := (bind m (fun x => k))
  (at level 61, m at next level, right associativity) : prog_scope.
Notation "m ;; k" := (bind m (fun _ => k))
  (at level 61, right associativity) : prog_scope.
Local Open Scope prog_scope.

Definition emit (e : event) : M unit := fun w => (Val tt, w, [e]).

(** A call of an [int] function: its [return] statements give the value of
    the call. *)
Definition call (body : M Z) : M Z :=
  fun w =>
    match body w with
    | (Stop (Return code), w1, l1) => (Val code, w1, l1)
    | other => other
    end.

(** The exit code of a run of [main], when it has one. *)
Definition exit_code (r : outcome Z) : option Z :=
  match r with
  | Val code => Some code
  | Stop (Return code) => Some code
  | Stop _ => None
  end.

(** *** Primitives of socket.h and of the C library *)

(** Modelled from the spec: the functions of socket.h ([initializeNetwork],
    [terminateNetwork], [openSocket], [connectSocket], [closeSocket],
    [writeSocket], [readSocket], [printSocketError]) are not among the
    sources.  The specification takes them as the primitives of the
    transport (its sections 1 and 4): a write sends all the bytes it is
    given or fails, a read delivers at most the bytes asked for, possibly
    fewer, nothing at the end of the stream, or fails.  Each is rendered by
    a function that logs the call and takes its result from the [world];
    the program looks at nothing else of them. *)
Definition initializeNetwork : M Z :=
  fun w => (Val (w_initializeNetwork w), w,
            [EvInitializeNetwork (w_initializeNetwork w)]).

Definition terminateNetwork : M unit := emit EvTerminateNetwork.

Definition openSocket : M SOCKET :=
  fun w => (Val (w_openSocket w), w, [EvOpenSocket (w_openSocket w)]).

Definition connectSocket (socket : SOCKET) (port : Z) : M Z :=
  fun w => (Val (w_connectSocket w), w,
            [EvConnect socket port (w_connectSocket w)]).

Definition closeSocket (socket : SOCKET) : M unit := emit (EvClose socket).

Definition writeSocket (socket : SOCKET) (at_ : site) (data : bytes) : M Z :=
  fun w =>
    let r := hd 0 (w_writeSocket w) in
    (Val r,
     mkWorld (w_initializeNetwork w) (w_openSocket w) (w_connectSocket w)
             (tl (w_writeSocket w)) (w_stdin w) (w_socket w),
     [EvWrite socket at_ data r]).

Definition readSocket (socket : SOCKET) (len : nat) : M (option bytes) :=
  fun w =>
    let '(r, rest) := take (w_socket w) len in
    (Val r,
     mkWorld (w_initializeNetwork w) (w_openSocket w) (w_connectSocket w)
             (w_writeSocket w) (w_stdin w) rest,
     [EvRecv socket len r]).

(** [read(0, buffer, len)]; standard input has been made non-blocking, so a
    read with nothing to deliver fails (result -1). *)
Definition readStdin (len : nat) : M (option bytes) :=
  fun w =>
    let '(r, rest) := take (w_stdin w) len in
    (Val r,
     mkWorld (w_initializeNetwork w) (w_openSocket w) (w_connectSocket w)
             (w_writeSocket w) rest (w_socket w),
     [EvReadStdin len r]).

Definition printSocketError (msg : bytes) : M unit := emit (EvSocketError msg).

Definition fprintf_stdout (text : bytes) : M unit := emit (EvStdout text).

Definition fprintf_stderr (text : bytes) : M unit := emit (EvStderr text).

(** A computation without effects, possibly faulting. *)
Definition lift {A} (o : outcome A) : M A := fun w => (o, w, []).

(** ** The program *)

(** The bytes [writeSocket(socket, dataString, strlen(dataString) + 1)] is
    given: the characters of the string and its terminating zero byte.  No
    length is written before them. *)
Definition string_bytes (dataString : bytes) : bytes :=
  cstr dataString ++ [NUL].

(** The macro of lines 13-17. *)
Definition WRITE_STRING_OR_EXIT (socket : SOCKET) (at_ : site)
    (dataName : string) (dataString : bytes) : M unit :=
  r <- writeSocket socket at_ (string_bytes dataString);;
  if negb (r =? 0)
  then printSocketError (lit "ERROR: Couldn't send " ++ lit dataName);;
       halt (Return 1)
  else ret tt.

(** Little-endian reading of the two bytes stored into [outputLength]: the
    byte order of every host the trampoline is built for. *)
Definition u16 (b0 b1 : ascii) : nat := Z.to_nat (uchar b0 + 256 * uchar b1).

(** The loop of lines 68-77.  [acc] holds the bytes stored in [buffer] so
    far, so [totalBytesRead] is its length.  A turn that goes on has read at
    least one byte of the [outputLength] asked for, hence the bound
    [fuel]. *)
Fixpoint readPayload (fuel : nat) (socket : SOCKET) (outputLength : nat)
    (acc : bytes) : M (Z * bytes) :=
  match fuel with
  | O => halt OutOfFuel
  | S fuel' =>
      bytesRead <- readSocket socket (outputLength - length acc);;
      match bytesRead with
      | None =>
          printSocketError (lit "ERROR: Error reading from socket");;
          ret (-1, acc)
      | Some bs =>
          let acc' := acc ++ bs in
          if (0 <? length bs)%nat
          then readPayload fuel' socket outputLength acc'
          else ret (Z.of_nat (length acc'), acc' ++ [NUL])
      end
  end.

(** Lines 52-82.  The result pairs the value returned with the bytes the
    call has stored at the start of [buffer] (on success the payload and the
    zero byte after it); what lies behind them in the buffer is stale and is
    never looked at. *)
Definition readDelimitedString (socket : SOCKET) (bufferSize : nat)
    : M (Z * bytes) :=
  header <- readSocket socket 2;;
  match header with
  | Some [b0; b1] =>
      let outputLength := u16 b0 b1 in
      if (bufferSize <? outputLength)%nat
      then fprintf_stderr
             (lit "ERROR: received string is bigger than buffer ("
                ++ decimal (Z.of_nat outputLength) ++ lit " > "
                ++ decimal (Z.of_nat bufferSize) ++ lit ")");;
           ret (-1, [])
      else readPayload (S outputLength) socket outputLength []
  | _ =>
      printSocketError (lit "ERROR: Error reading from socket");;
      ret (-1, [])
  end.

(** The loop of lines 116-118, from the argument at hand. *)
Fixpoint sendArgumentList (socket : SOCKET) (args : list bytes) : M unit :=
  match args with
  | [] => ret tt
  | arg :: rest =>
      WRITE_STRING_OR_EXIT socket SiteArg "argument" arg;;
      sendArgumentList socket rest
  end.

(** Lines 110-118.  [argc] is the number of entries of [argv], the program
    name included. *)
Definition sendArguments (socket : SOCKET) (argv : list bytes) : M unit :=
  let argc := Z.of_nat (length argv) in
  let argcString := decimal (argc - 1) in
  WRITE_STRING_OR_EXIT socket SiteArgc "number of arguments" argcString;;
  sendArgumentList socket (tl argv).

(** A store [a[idx] = v] into an array: [None] when [idx] is not an index
    of [a]. *)
Definition array_store {A} (a : list A) (idx : nat) (v : A)
  : option (list A) :=
  if (idx <? length a)%nat
  then Some (firstn idx a ++ v :: skipn (S idx) a)
  else None.

(** Lines 121-128.  [validEnvVars] is an array of [NUMBER_OF_VALID_ENV_VARS]
    pointers, none set at first. *)
Fixpoint collectEnv (envp : list bytes) (validEnvVars : list (option bytes))
    (envc : nat) : outcome (list (option bytes) * nat) :=
  match envp with
  | [] => Val (validEnvVars, envc)
  | env :: rest =>
      if negb (isValidEnvVar env =? 0)
      then match array_store validEnvVars envc (Some env) with
           | Some stored => collectEnv rest stored (S envc)
           | None => Stop (OutOfBounds envc)
           end
      else collectEnv rest validEnvVars envc
  end.

(** Lines 135-138: [count] turns are left, [idx] is the index at hand. *)
Fixpoint sendEnvVars (socket : SOCKET) (validEnvVars : list (option bytes))
    (idx count : nat) : M unit :=
  match count with
  | O => ret tt
  | S count' =>
      match nth_error validEnvVars idx with
      | Some (Some env) =>
          WRITE_STRING_OR_EXIT socket SiteEnv "environment variable" env;;
          sendEnvVars socket validEnvVars (S idx) count'
      | Some None => halt (Uninitialised idx)
      | None => halt (OutOfBounds idx)
      end
  end.

Definition sendEnvironment (socket : SOCKET) (envp : list bytes) : M unit :=
  collected <- lift (collectEnv envp (repeat None NUMBER_OF_VALID_ENV_VARS) 0);;
  let '(validEnvVars, envc) := collected in
  let envcString := decimal (Z.of_nat envc) in
  WRITE_STRING_OR_EXIT socket SiteEnvc "number of environment variables"
    envcString;;
  sendEnvVars socket validEnvVars 0 envc.

(** The loop of lines 150-169.  Every turn that goes on has taken at least
    one byte from standard input. *)
Fixpoint relayStdinLoop (fuel : nat) (socket : SOCKET)
    (totalBytesWritten : Z) : M unit :=
  match fuel with
  | O => halt OutOfFuel
  | S fuel' =>
      bytesToWrite <- readStdin BUFFER_LENGTH;;
      match bytesToWrite with
      | None =>
          if totalBytesWritten =? 0
          then ret tt
          else fprintf_stderr (lit "ERROR: Error reading stdin data");;
               halt (Return 1)
      | Some buffer =>
          r <- writeSocket socket SiteStdin buffer;;
          if negb (r =? 0)
          then printSocketError (lit "ERROR: Couldn't send stdin data");;
               halt (Return 1)
          else
            let total := size_add totalBytesWritten (Z.of_nat (length buffer)) in
            if (0 <? length buffer)%nat
            then relayStdinLoop fuel' socket total
            else ret tt
      end
  end.

(** The number of reads a byte source can answer with at least one byte,
    plus one per segment. *)
Fixpoint source_size (src : list segment) : nat :=
  match src with
  | [] => 0
  | RdErr :: rest => S (source_size rest)
  | RdData bs :: rest => S (length bs + source_size rest)
  end.

(** Lines 140-171: the loop, then the terminator, whose result is not
    looked at.  The two calls of [fcntl] before the loop (lines 146-147)
    make standard input non-blocking; they show in the model only in that a
    read may fail for want of data. *)
Definition relayStdin (socket : SOCKET) : M unit :=
  (fun w => relayStdinLoop (S (source_size (w_stdin w))) socket 0 w);;
  _ <- writeSocket socket SiteTerminator [NUL];;
  ret tt.

(** Lines 173-191. *)
Definition relayOutput (socket : SOCKET) : M Z :=
  out <- readDelimitedString socket BUFFER_LENGTH;;
  if fst out =? -1
  then fprintf_stderr (lit "ERROR: Couldn't read stdout from socket");;
       halt (Return 1)
  else
    fprintf_stdout (cstr (snd out));;
    err <- readDelimitedString socket BUFFER_LENGTH;;
    if fst err =? -1
    then fprintf_stderr (lit "ERROR: Couldn't read stdout from socket");;
         halt (Return 1)
    else
      fprintf_stderr (cstr (snd err));;
      halt (Return 0).

(** Lines 105-138: the connection, then the arguments and the filtered
    environment. *)
Definition handshake (socket : SOCKET) (desktopPort : Z)
    (argv envp : list bytes) : M unit :=
  r <- connectSocket socket desktopPort;;
  if negb (r =? 0)
  then printSocketError
         (lit "ERROR: Couldn't connect to 127.0.0.1:" ++ decimal desktopPort);;
       halt (Return 1)
  else
    sendArguments socket argv;;
    sendEnvironment socket envp.

(** Lines 105-191: what [runTrampolineClient] does with the socket it has
    opened. *)
Definition session (socket : SOCKET) (desktopPort : Z)
    (argv envp : list bytes) : M Z :=
  handshake socket desktopPort argv envp;;
  relayStdin socket;;
  relayOutput socket.

Definition DESKTOP_PORT : bytes := lit "DESKTOP_PORT".

(** Lines 84-192.  [outSocket] is the content of the cell the first
    parameter points to; the result carries its content when the function is
    left. *)
Definition runTrampolineClient (outSocket : SOCKET) (argv envp : list bytes)
    : M (SOCKET * Z) :=
  match getenv DESKTOP_PORT envp with
  | None =>
      fprintf_stderr (lit "ERROR: Missing DESKTOP_PORT environment variable"
                        ++ ["010"%char]);;
      ret (outSocket, 1)
  | Some desktopPortString =>
      let desktopPort := to_ushort (atoi desktopPortString) in
      socket <- openSocket;;
      match socket with
      | INVALID_SOCKET =>
          printSocketError (lit "ERROR: Couldn't create TCP socket");;
          ret (outSocket, 1)
      | Handle _ =>
          result <- call (session socket desktopPort argv envp);;
          ret (socket, result)
      end
  end.

(** Lines 194-210. *)
Definition main (argv envp : list bytes) : M Z :=
  r <- initializeNetwork;;
  if negb (r =? 0)
  then halt (Return 1)
  else
    run <- runTrampolineClient INVALID_SOCKET argv envp;;
    let '(socket, result) := run in
    match socket with
    | INVALID_SOCKET => ret tt
    | Handle _ => closeSocket socket
    end;;
    terminateNetwork;;
    halt (Return result).

(** ** Vocabulary of the statements *)

(** A string without zero byte: a C string whose characters are all the
    bytes of the list. *)
Definition no_nul (s : bytes) : Prop := ~ In NUL s.

(** The entries of an environment the filter lets through, in the order of
    the environment. *)
Definition valid_entries (envp : list bytes) : list bytes :=
  filter (fun env => negb (isValidEnvVar env =? 0)) envp.

(** The world once a call of [writeSocket] has been answered. *)
Definition written (w : world) : world :=
  mkWorld (w_initializeNetwork w) (w_openSocket w) (w_connectSocket w)
          (tl (w_writeSocket w)) (w_stdin w) (w_socket w).

(** Every event a computation logs, whatever the world, has property [P]. *)
Definition logs {A} (P : event -> Prop) (m : M A) : Prop :=
  forall w, Forall P (snd (m w)).

(** The events of a session: all but those of [main] itself and the opening
    of the socket. *)
Definition session_event (e : event) : Prop :=
  match e with
  | EvInitializeNetwork _ | EvOpenSocket _ | EvClose _
  | EvTerminateNetwork => False
  | _ => True
  end.

(** The events that touch the socket. *)
Definition socket_event (e : event) : Prop :=
  match e with
  | EvOpenSocket _ | EvConnect _ _ _ | EvWrite _ _ _ _ | EvRecv _ _ _
  | EvClose _ => True
  | _ => False
  end.

(** The events of the relay of standard input: its reads, the writes of
    what was read, the terminator. *)
Definition stdin_event (e : event) : Prop :=
  match e with
  | EvReadStdin _ _ | EvWrite _ SiteStdin _ _
  | EvWrite _ SiteTerminator _ _ => True
  | _ => False
  end.

Definition terminator_event (e : event) : Prop :=
  match e with
  | EvWrite _ SiteTerminator _ _ => True
  | _ => False
  end.

(** The number of bytes of standard input a log shows as forwarded: those
    of the writes of the relay that succeeded. *)
Fixpoint forwarded (l : list event) : Z :=
  match l with
  | [] => 0
  | EvWrite _ SiteStdin data r :: rest =>
      (if r =? 0 then Z.of_nat (length data) else 0) + forwarded rest
  | _ :: rest => forwarded rest
  end.

(** The logs the loop of the relay can leave when it starts with
    [totalBytesWritten] equal to [t], with the way the loop ends. *)
Inductive relay_trace (socket : SOCKET)
  : Z -> list event -> outcome unit -> Prop :=
| relay_no_stdin :
    relay_trace socket 0 [EvReadStdin BUFFER_LENGTH None] (Val tt)
| relay_read_error t :
    t <> 0 ->
    relay_trace socket t
      [EvReadStdin BUFFER_LENGTH None;
       EvStderr (lit "ERROR: Error reading stdin data")]
      (Stop (Return 1))
| relay_send_failure t buffer r :
    r <> 0 ->
    relay_trace socket t
      [EvReadStdin BUFFER_LENGTH (Some buffer);
       EvWrite socket SiteStdin buffer r;
       EvSocketError (lit "ERROR: Couldn't send stdin data")]
      (Stop (Return 1))
| relay_end_of_input t :
    relay_trace socket t
      [EvReadStdin BUFFER_LENGTH (Some []); EvWrite socket SiteStdin [] 0]
      (Val tt)
| relay_chunk t buffer l r :
    buffer <> [] ->
    relay_trace socket (size_add t (Z.of_nat (length buffer))) l r ->
    relay_trace socket t
      (EvReadStdin BUFFER_LENGTH (Some buffer)
       :: EvWrite socket SiteStdin buffer 0 :: l) r
| relay_out_of_fuel t :
    relay_trace socket t [] (Stop OutOfFuel).

(** What the process itself prints: to standard output, to standard error,
    or through [printSocketError]. *)
Definition output_event (e : event) : Prop :=
  match e with
  | EvStdout _ | EvStderr _ | EvSocketError _ => True
  | _ => False
  end.

(** The strings of the handshake in the order they are sent: the count of
    arguments, the arguments, the count of the filtered entries, the
    filtered entries. *)
Definition header_plan (argv envp : list bytes) : list (site * bytes) :=
  (SiteArgc, decimal (Z.of_nat (length argv) - 1))
  :: map (pair SiteArg) (tl argv)
  ++ (SiteEnvc, decimal (Z.of_nat (length (valid_entries envp))))
  :: map (pair SiteEnv) (valid_entries envp).

(** A string sent with success. *)
Definition sent (socket : SOCKET) (item : site * bytes) : event :=
  EvWrite socket (fst item) (string_bytes (snd item)) 0.

(** The reads of a payload, each with the length asked for and the bytes
    delivered, and the bytes they deliver together. *)
Definition recvs (socket : SOCKET) (rs : list (nat * bytes)) : list event :=
  map (fun r => EvRecv socket (fst r) (Some (snd r))) rs.

Definition received (rs : list (nat * bytes)) : bytes :=
  concat (map snd rs).

(** The events of a relay of standard input that went well: reads that
    delivered something (or the first one failing), writes that
    succeeded. *)
Definition relay_ok_event (socket : SOCKET) (e : event) : Prop :=
  match e with
  | EvReadStdin len _ => len = BUFFER_LENGTH
  | EvWrite s SiteStdin _ r => s = socket /\ r = 0
  | _ => False
  end.

(** Whenever the computation stops short of its end, the way it stops has
    property [P]. *)
Definition stops {A} (P : stop -> Prop) (m : M A) : Prop :=
  forall w st w' l, m w = (Stop st, w', l) -> P st.

(** The frame of the specification (its section 3): a 2-byte unsigned
    length, in the byte order [u16] reads, followed by exactly that many
    bytes of payload. *)
Definition u16_bytes (n : nat) : bytes :=
  [ascii_of_nat (n mod 256); ascii_of_nat (n / 256)].

Definition frame (payload : bytes) : bytes :=
  u16_bytes (length payload) ++ payload.

(** A byte source whose next read does not fail. *)
Definition no_error_next (src : list segment) : Prop :=
  match src with
  | RdErr :: _ => False
  | _ => True
  end.

(** A write that failed at a call site other than that of the terminator. *)
Definition failing_write (e : event) : Prop :=
  match e with
  | EvWrite _ at_ _ r => at_ <> SiteTerminator /\ r <> 0
  | _ => False
  end.

(** A computation that, as soon as one of its writes has failed (the
    terminator's apart), reports it and returns 1. *)
Definition guarded {A} (m : M A) : Prop :=
  forall w r w' l pre e post,
    m w = (r, w', l) ->
    l = pre ++ e :: post ->
    failing_write e ->
    r = Stop (Return 1) /\ exists msg, post = [EvSocketError msg].

(** The step of the protocol an event belongs to, in the order of the
    specification (section 4.5); what the process prints has no step of its
    own. *)
Definition step_of (e : event) : option nat :=
  match e with
  | EvInitializeNetwork _ => Some 0
  | EvOpenSocket _ => Some 1
  | EvConnect _ _ _ => Some 2
  | EvWrite _ SiteArgc _ _ => Some 3
  | EvWrite _ SiteArg _ _ => Some 4
  | EvWrite _ SiteEnvc _ _ => Some 5
  | EvWrite _ SiteEnv _ _ => Some 6
  | EvReadStdin _ _ | EvWrite _ SiteStdin _ _ => Some 7
  | EvWrite _ SiteTerminator _ _ => Some 8
  | EvRecv _ _ _ => Some 9
  | EvClose _ => Some 10
  | EvTerminateNetwork => Some 11
  | EvStdout _ | EvStderr _ | EvSocketError _ => None
  end%nat.

Definition steps (l : list event) : list nat :=
  flat_map (fun e => match step_of e with Some k => [k] | None => [] end) l.

(** A log whose steps never go back, all of them between [lo] and [hi]. *)
Definition ordered_log (lo hi : nat) (l : list event) : Prop :=
  StronglySorted le (steps l) /\ Forall (fun k => lo <= k <= hi)%nat (steps l).

Definition ordered {A} (lo hi : nat) (m : M A) : Prop :=
  forall w, ordered_log lo hi (snd (m w)).


(** ** Further vocabulary *)

(** The name of an environment entry: what stands before its first equals
    sign. *)
Fixpoint env_name (entry : bytes) : bytes :=
  match entry with
  | [] => []
  | c :: rest => if Ascii.eqb c "=" then [] else c :: env_name rest
  end.

(** The world with its socket source replaced. *)
Definition set_socket (w : world) (src : list segment) : world :=
  mkWorld (w_initializeNetwork w) (w_openSocket w) (w_connectSocket w)
          (w_writeSocket w) (w_stdin w) src.

(** The chunks of standard input a log shows as read, and those it shows
    as handed to [writeSocket] by the relay, in the order of the log. *)
Definition stdin_reads (l : list event) : list bytes :=
  flat_map (fun e => match e with
                     | EvReadStdin _ (Some data) => [data]
                     | _ => []
                     end) l.

Definition stdin_writes (l : list event) : list bytes :=
  flat_map (fun e => match e with
                     | EvWrite _ SiteStdin data _ => [data]
                     | _ => []
                     end) l.

(** A byte source that holds data only: no failing read, no empty
    segment; its bytes. *)
Definition has_data (s : segment) : Prop :=
  match s with
  | RdData (_ :: _) => True
  | _ => False
  end.

Definition source_bytes (src : list segment) : bytes :=
  concat (map (fun s => match s with RdData bs => bs | RdErr => [] end) src).

(** Every call of [writeSocket] still to come succeeds. *)
Definition writes_succeed (w : world) : Prop :=
  Forall (fun r => r = 0) (w_writeSocket w).

(** The events of the handshake and those of the reply. *)
Definition handshake_event (e : event) : Prop :=
  match e with
  | EvConnect _ _ _ | EvSocketError _
  | EvWrite _ SiteArgc _ _ | EvWrite _ SiteArg _ _
  | EvWrite _ SiteEnvc _ _ | EvWrite _ SiteEnv _ _ => True
  | _ => False
  end.

Definition reply_event (e : event) : Prop :=
  match e with
  | EvRecv _ _ _ | EvStdout _ | EvStderr _ | EvSocketError _ => True
  | _ => False
  end.

(** The events of a run that ends before a socket is connected. *)
Definition startup_event (e : event) : Prop :=
  match e with
  | EvInitializeNetwork _ | EvOpenSocket INVALID_SOCKET | EvStderr _
  | EvSocketError _ | EvTerminateNetwork => True
  | _ => False
  end.

(** [uses_socket e s]: the event is an operation on the socket [s]. *)
Definition uses_socket (e : event) (s : SOCKET) : Prop :=
  match e with
  | EvConnect s' _ _ | EvWrite s' _ _ _ | EvRecv s' _ _ | EvClose s' => s' = s
  | _ => False
  end.

Definition network_event (e : event) : Prop :=
  match e with
  | EvInitializeNetwork _ | EvTerminateNetwork => True
  | _ => False
  end.

(** The world once a chunk of standard input has been read and written:
    [rest] is what standard input still holds. *)
Definition after_chunk (w : world) (rest : list segment) : world :=
  mkWorld (w_initializeNetwork w) (w_openSocket w) (w_connectSocket w)
          (tl (w_writeSocket w)) rest (w_socket w).

(** A diagnostic of the client: a text that begins with [ERROR: ], printed
    on standard error or through [printSocketError]. *)
Definition diagnostic (e : event) : Prop :=
  match e with
  | EvStderr text | EvSocketError text => firstn 7 text = lit "ERROR: "
  | _ => False
  end.

(** A computation that, whenever it returns 1, has printed a diagnostic as
    the last thing it did. *)
Definition reports {A} (m : M A) : Prop :=
  forall w w' l,
    m w = (Stop (Return 1), w', l) ->
    exists pre d, l = pre ++ [d] /\ diagnostic d.

(** * Properties *)

(** ** The environment filter *)

Section EnvironmentFilter.

Lemma uchar_inj (a b : ascii) : uchar a - uchar b = 0 -> a = b.
Proof.
  unfold uchar. intros H.
  assert (E : N_of_ascii a = N_of_ascii b) by lia.
  rewrite <- (ascii_N_embedding a), <- (ascii_N_embedding b).
  now rewrite E.
Qed.

Lemma strlen_no_nul (s : bytes) : no_nul s -> strlen s = length s.
Proof.
  unfold no_nul. induction s as [|c r IH]; simpl; intros H; [reflexivity|].
  destruct (Ascii.eqb_spec c NUL) as [->|_].
  - exfalso. apply H. now left.
  - f_equal. apply IH. intros HI. apply H. now right.
Qed.

(** Against a string without zero byte, [strncmp] over its whole length
    is a prefix test. *)
Lemma strncmp_prefix (c : bytes) :
  no_nul c ->
  forall s, strncmp s c (length c) = 0 <-> exists rest, s = c ++ rest.
Proof.
  unfold no_nul. induction c as [|x c IH]; intros Hc s.
  - simpl. split; [intros _; now exists s | reflexivity].
  - assert (Hx : x <> NUL) by (intros ->; apply Hc; now left).
    assert (Hc' : ~ In NUL c) by (intros HI; apply Hc; now right).
    cbn [length strncmp hd tl]. split.
    + destruct (Ascii.eqb_spec (hd NUL s) x) as [E|NE].
      * destruct (Ascii.eqb_spec (hd NUL s) NUL) as [E0|_];
          [congruence|].
        intros H. apply (IH Hc') in H. destruct H as [rest Hrest].
        destruct s as [|y s']; simpl in *; [congruence|].
        exists rest. now subst.
      * intros H. apply uchar_inj in H. contradiction.
    + intros [rest ->]. cbn [app hd tl].
      rewrite Ascii.eqb_refl.
      destruct (Ascii.eqb_spec x NUL) as [E0|_]; [contradiction|].
      apply (IH Hc'). now exists rest.
Qed.

Lemma strlen_app_no_nul (c rest : bytes) :
  no_nul c -> strlen (c ++ rest) = (length c + strlen rest)%nat.
Proof.
  unfold no_nul. induction c as [|x c IH]; simpl; intros H; [reflexivity|].
  destruct (Ascii.eqb_spec x NUL) as [->|_].
  - exfalso. apply H. now left.
  - f_equal. apply IH. intros HI. apply H. now right.
Qed.

Lemma char_at_app (c rest : bytes) :
  char_at (c ++ rest) (length c) = hd NUL rest.
Proof.
  unfold char_at. rewrite app_nth2 by lia.
  rewrite Nat.sub_diag. now destruct rest.
Qed.

(** The test of one candidate holds exactly of the strings that start
    with the candidate and an equals sign. *)
Lemma matchesCandidate_spec (env candidate : bytes) :
  no_nul candidate ->
  matchesCandidate env candidate = true
  <-> exists rest, env = candidate ++ "="%char :: rest.
Proof.
  intros Hc. unfold matchesCandidate.
  rewrite (strlen_no_nul _ Hc), !andb_true_iff, Z.eqb_eq, Nat.ltb_lt.
  split.
  - intros [[Hcmp _] Heq].
    apply (strncmp_prefix _ Hc) in Hcmp. destruct Hcmp as [rest ->].
    rewrite char_at_app in Heq.
    destruct rest as [|y rest]; simpl in Heq; [discriminate|].
    apply Ascii.eqb_eq in Heq. subst y. now exists rest.
  - intros [rest ->]. repeat split.
    + apply (strncmp_prefix _ Hc). now eexists.
    + rewrite (strlen_app_no_nul _ _ Hc). cbn [strlen].
      destruct (Ascii.eqb_spec "="%char NUL); [discriminate | lia].
    + rewrite char_at_app. reflexivity.
Qed.

Lemma isValidEnvVar_loop_spec (candidates : list bytes) (env : bytes) :
  (isValidEnvVar_loop candidates env = 1
   <-> exists c, In c candidates /\ matchesCandidate env c = true)
  /\ (isValidEnvVar_loop candidates env = 0
      \/ isValidEnvVar_loop candidates env = 1).
Proof.
  induction candidates as [|c cs [IH1 IH2]]; simpl.
  - split; [|now left]. split; [discriminate | intros (c & [] & _)].
  - destruct (matchesCandidate env c) eqn:E.
    + split; [|now right]. split; [|reflexivity].
      intros _. exists c. split; [now left | assumption].
    + split; [|assumption]. rewrite IH1. split.
      * intros (c' & Hin & Hm). exists c'. split; [now right | assumption].
      * intros (c' & [->|Hin] & Hm); [congruence|]. now exists c'.
Qed.

(** A string is cut at its first equals sign in one way only. *)
Lemma split_at_equals (a b ra rb : bytes) :
  ~ In "="%char a -> ~ In "="%char b ->
  a ++ "="%char :: ra = b ++ "="%char :: rb -> a = b.
Proof.
  revert b. induction a as [|x a IH]; intros [|y b] Ha Hb E;
    simpl in *; try reflexivity.
  - injection E as E _. exfalso. apply Hb. left. now symmetry.
  - injection E as E _. exfalso. apply Ha. now left.
  - injection E as -> E. f_equal. apply (IH b); auto.
Qed.

Lemma sValidEnvVars_plain (c : bytes) :
  In c sValidEnvVars -> no_nul c /\ ~ In "="%char c.
Proof.
  intros H. unfold no_nul.
  repeat (destruct H as [<-|H];
          [split; intros HI; vm_compute in HI;
           repeat (destruct HI as [HI|HI]; [discriminate HI|]);
           exact HI|]).
  destruct H.
Qed.

(** No name of the allow-list starts another one. *)
Lemma sValidEnvVars_no_prefix (X Y extra : bytes) :
  In X sValidEnvVars -> In Y sValidEnvVars -> Y = X ++ extra -> extra = [].
Proof.
  intros HX HY E.
  assert (P : firstn (length X) Y = X)
    by (rewrite E, firstn_app, Nat.sub_diag, firstn_all; simpl;
        now rewrite app_nil_r).
  assert (XY : X = Y).
  { simpl in HX, HY.
    repeat (destruct HX as [<-|HX]);
      repeat (destruct HY as [<-|HY]);
      try contradiction; try reflexivity;
      vm_compute in P; discriminate P. }
  rewrite <- XY in E. rewrite <- (app_nil_r X) in E at 1.
  apply app_inv_head in E. now symmetry.
Qed.

End EnvironmentFilter.

(** C2.  For a string [NAME=value] (the name being what stands before the
    first equals sign), [isValidEnvVar] returns 1 exactly when the name is
    one of the four names of the allow-list and 0 otherwise; in particular
    it returns 0 for an allow-listed name followed by extra characters. *)
Theorem isValidEnvVar_exact_name (name value : bytes) :
  ~ In "="%char name ->
  (isValidEnvVar (name ++ "="%char :: value) = 1 <-> In name sValidEnvVars)
  /\ (isValidEnvVar (name ++ "="%char :: value) = 0
      <-> ~ In name sValidEnvVars)
  /\ (forall X extra, In X sValidEnvVars -> name = X ++ extra ->
      extra <> [] -> isValidEnvVar (name ++ "="%char :: value) = 0).
Proof.
  intros Hname.
  destruct (isValidEnvVar_loop_spec sValidEnvVars
              (name ++ "="%char :: value)) as [Hone Hrange].
  fold (isValidEnvVar (name ++ "="%char :: value)) in Hone, Hrange.
  assert (Hiff : isValidEnvVar (name ++ "="%char :: value) = 1
                 <-> In name sValidEnvVars).
  { rewrite Hone. split.
    - intros (c & Hin & Hm).
      destruct (sValidEnvVars_plain c Hin) as [Hnul Heq].
      apply (matchesCandidate_spec _ _ Hnul) in Hm. destruct Hm as [rest E].
      apply split_at_equals in E; auto. now subst.
    - intros Hin. exists name. split; [assumption|].
      apply matchesCandidate_spec; [apply sValidEnvVars_plain, Hin|].
      now exists value. }
  assert (Hzero : isValidEnvVar (name ++ "="%char :: value) = 0
                  <-> ~ In name sValidEnvVars).
  { rewrite <- Hiff. destruct Hrange as [E|E]; rewrite E;
      split; intros H; try reflexivity; try discriminate.
    exfalso. now apply H. }
  split; [exact Hiff | split; [exact Hzero |]].
  intros X extra HX E Hextra. apply Hzero. intros Hin.
  apply Hextra. exact (sValidEnvVars_no_prefix X name extra HX Hin E).
Qed.

Lemma isValidEnvVar_exact_name_witness :
  ~ In "="%char (lit "DESKTOP_USERNAME")
  /\ (isValidEnvVar (lit "DESKTOP_USERNAME" ++ "="%char :: lit "alice") = 1
      <-> In (lit "DESKTOP_USERNAME") sValidEnvVars).
Proof.
  assert (H : ~ In "="%char (lit "DESKTOP_USERNAME")).
  { intros HI. vm_compute in HI.
    repeat (destruct HI as [HI|HI]; [discriminate HI|]). exact HI. }
  split; [exact H|].
  exact (proj1 (isValidEnvVar_exact_name (lit "DESKTOP_USERNAME")
                  (lit "alice") H)).
Defined.

(** ** The array of the filtered entries *)

Section ValidEnvVars.

Lemma array_store_in_bounds {A} (a : list A) (idx : nat) (v : A) :
  (idx < length a)%nat ->
  exists stored,
    array_store a idx v = Some stored
    /\ length stored = length a
    /\ firstn (S idx) stored = firstn idx a ++ [v].
Proof.
  intros H. unfold array_store.
  destruct (Nat.ltb_spec idx (length a)) as [_|]; [|lia].
  eexists. split; [reflexivity|]. split.
  - rewrite length_app. cbn [length]. rewrite length_firstn, length_skipn. lia.
  - assert (L : length (firstn idx a) = idx)
      by (rewrite length_firstn; lia).
    rewrite firstn_app, L.
    replace (S idx - idx)%nat with 1%nat by lia.
    rewrite firstn_all2 by lia. reflexivity.
Qed.

Lemma array_store_out_of_bounds {A} (a : list A) (idx : nat) (v : A) :
  (length a <= idx)%nat -> array_store a idx v = None.
Proof.
  intros H. unfold array_store.
  destruct (Nat.ltb_spec idx (length a)); [lia | reflexivity].
Qed.

(** As long as the array has room, the loop stores the valid entries one
    after the other, in the order of the environment. *)
Lemma collectEnv_fits (envp : list bytes) :
  forall validEnvVars envc,
    (envc + length (valid_entries envp) <= length validEnvVars)%nat ->
    exists stored,
      collectEnv envp validEnvVars envc
      = Val (stored, (envc + length (valid_entries envp))%nat)
      /\ length stored = length validEnvVars
      /\ firstn (envc + length (valid_entries envp)) stored
         = firstn envc validEnvVars ++ map Some (valid_entries envp).
Proof.
  induction envp as [|env rest IH]; intros a envc Hfit; simpl in *.
  - exists a. rewrite Nat.add_0_r, app_nil_r. auto.
  - destruct (negb (isValidEnvVar env =? 0)); simpl in *.
    + destruct (array_store_in_bounds a envc (Some env))
        as (stored & -> & Hlen & Hfirst); [lia|].
      destruct (IH stored (S envc)) as (final & E & Hlen' & Hfirst');
        [lia|].
      exists final. rewrite Nat.add_succ_r. cbn [Nat.add] in E, Hfirst'.
      rewrite E. split; [reflexivity|]. split; [congruence|].
      rewrite Hfirst', Hfirst, <- app_assoc. reflexivity.
    + apply IH. assumption.
Qed.

(** With more valid entries than the array has elements, the store of the
    first entry in excess is at the index one past the last element. *)
Lemma collectEnv_overflows (envp : list bytes) :
  forall validEnvVars envc,
    (envc <= length validEnvVars)%nat ->
    (length validEnvVars < envc + length (valid_entries envp))%nat ->
    collectEnv envp validEnvVars envc
    = Stop (OutOfBounds (length validEnvVars)).
Proof.
  induction envp as [|env rest IH]; intros a envc Hle Hover; simpl in *.
  - lia.
  - destruct (negb (isValidEnvVar env =? 0)); simpl in *.
    + destruct (Nat.eq_dec envc (length a)) as [->|Hne].
      * now rewrite array_store_out_of_bounds by lia.
      * destruct (array_store_in_bounds a envc (Some env))
          as (stored & -> & Hlen & _); [lia|].
        rewrite <- Hlen. apply IH; lia.
    + apply IH; assumption.
Qed.

End ValidEnvVars.

(** C10.  [validEnvVars] has [NUMBER_OF_VALID_ENV_VARS] = 4 elements; the
    loop that fills it completes (every store in bounds) exactly when the
    environment has at most 4 entries the filter lets through, and with
    more of them, which an environment repeating a name provides, the fifth
    store is at index 4, outside the array. *)
Theorem validEnvVars_store_bounds :
  length (repeat (@None bytes) NUMBER_OF_VALID_ENV_VARS) = 4%nat
  /\ (forall envp,
        (exists stored envc,
            collectEnv envp (repeat None NUMBER_OF_VALID_ENV_VARS) 0
            = Val (stored, envc))
        <-> (length (valid_entries envp) <= 4)%nat)
  /\ (forall envp,
        (4 < length (valid_entries envp))%nat <->
        collectEnv envp (repeat None NUMBER_OF_VALID_ENV_VARS) 0
        = Stop (OutOfBounds 4))
  /\ (exists envp,
        (4 < length (valid_entries envp))%nat
        /\ collectEnv envp (repeat None NUMBER_OF_VALID_ENV_VARS) 0
           = Stop (OutOfBounds 4)).
Proof.
  assert (Hover : forall envp, (4 < length (valid_entries envp))%nat ->
            collectEnv envp (repeat None NUMBER_OF_VALID_ENV_VARS) 0
            = Stop (OutOfBounds 4)).
  { intros envp H.
    apply (collectEnv_overflows envp (repeat None NUMBER_OF_VALID_ENV_VARS) 0);
      simpl; lia. }
  assert (Hfit : forall envp, (length (valid_entries envp) <= 4)%nat ->
            exists stored envc,
              collectEnv envp (repeat None NUMBER_OF_VALID_ENV_VARS) 0
              = Val (stored, envc)).
  { intros envp H.
    destruct (collectEnv_fits envp (repeat None NUMBER_OF_VALID_ENV_VARS) 0)
      as (stored & E & _); [simpl; lia|].
    eauto. }
  split; [reflexivity|]. split; [|split].
  - intros envp. split; [|apply Hfit].
    intros (stored & envc & E).
    destruct (Nat.le_gt_cases (length (valid_entries envp)) 4) as [|Hgt];
      [assumption|].
    rewrite (Hover envp Hgt) in E. discriminate.
  - intros envp. split; [apply Hover|].
    intros E.
    destruct (Nat.le_gt_cases (length (valid_entries envp)) 4) as [Hle|];
      [|assumption].
    destruct (Hfit envp Hle) as (stored & envc & E'). congruence.
  - exists (repeat (lit "DESKTOP_USERNAME=a") 5).
    split; [vm_compute; lia | reflexivity].
Qed.

(** ** The frame decoder: a declared length beyond the buffer *)

(** C4.  When the two bytes of the length prefix declare more than
    [bufferSize], [readDelimitedString] returns -1 after the one read of the
    prefix: no further read is made, and the socket still holds everything
    that follows the prefix. *)
Theorem readDelimitedString_oversize
    (socket : SOCKET) (bufferSize : nat) (w : world)
    (b0 b1 : ascii) (rest : list segment) :
  take (w_socket w) 2 = (Some [b0; b1], rest) ->
  (bufferSize < u16 b0 b1)%nat ->
  exists w' msg,
    readDelimitedString socket bufferSize w
    = (Val (-1, []), w', [EvRecv socket 2 (Some [b0; b1]); EvStderr msg])
    /\ w_socket w' = rest.
Proof.
  intros Htake Hbig.
  unfold readDelimitedString, bind, readSocket. rewrite Htake.
  destruct (Nat.ltb_spec bufferSize (u16 b0 b1)) as [_|]; [|lia].
  do 2 eexists. split; reflexivity.
Qed.

Lemma readDelimitedString_oversize_witness :
  exists w' msg,
    readDelimitedString (Handle 3) BUFFER_LENGTH
      (mkWorld 0 (Handle 3) 0 [] []
         [RdData ["001"%char; "016"%char; "a"%char]])
    = (Val (-1, []), w',
       [EvRecv (Handle 3) 2 (Some ["001"%char; "016"%char]); EvStderr msg])
    /\ w_socket w' = [RdData ["a"%char]].
Proof.
  apply (readDelimitedString_oversize (Handle 3) BUFFER_LENGTH
           (mkWorld 0 (Handle 3) 0 [] []
              [RdData ["001"%char; "016"%char; "a"%char]])
           "001"%char "016"%char [RdData ["a"%char]]).
  - reflexivity.
  - vm_compute. lia.
Defined.

(** ** The shape of a run *)

Section RunShape.

(** [session] is the handshake, the loop over standard input, the
    terminator (sent whatever the loop has forwarded, its result dropped)
    and the two frames of the reply. *)
Lemma session_eq socket port argv envp w :
  session socket port argv envp w =
  match handshake socket port argv envp w with
  | (Stop st, w1, l1) => (Stop st, w1, l1)
  | (Val _, w1, l1) =>
      match relayStdinLoop (S (source_size (w_stdin w1))) socket 0 w1 with
      | (Stop st, w2, l2) => (Stop st, w2, l1 ++ l2)
      | (Val _, w2, l2) =>
          match relayOutput socket (written w2) with
          | (r, w3, l3) =>
              (r, w3,
               l1 ++ l2
               ++ EvWrite socket SiteTerminator [NUL] (hd 0 (w_writeSocket w2))
               :: l3)
          end
      end
  end.
Proof.
  unfold session, relayStdin. unfold bind at 1.
  destruct (handshake socket port argv envp w) as [[[[]|st] w1] l1];
    [|reflexivity].
  unfold bind at 1. unfold bind at 1.
  destruct (relayStdinLoop (S (source_size (w_stdin w1))) socket 0 w1)
    as [[[[]|st] w2] l2]; [|reflexivity].
  unfold bind at 1. unfold writeSocket at 1. unfold ret at 1.
  fold (written w2).
  destruct (relayOutput socket (written w2)) as [[r w3] l3].
  cbn [app]. rewrite <- app_assoc. reflexivity.
Qed.

(** [main]: nothing but the initialisation when that fails; a diagnostic
    when the port is missing or no socket can be had; otherwise the
    session between the opening and the closing of the socket. *)
Lemma main_eq argv envp w :
  main argv envp w =
  if negb (w_initializeNetwork w =? 0)
  then (Stop (Return 1), w, [EvInitializeNetwork (w_initializeNetwork w)])
  else
    match getenv DESKTOP_PORT envp with
    | None =>
        (Stop (Return 1), w,
         [EvInitializeNetwork (w_initializeNetwork w);
          EvStderr (lit "ERROR: Missing DESKTOP_PORT environment variable"
                      ++ ["010"%char]);
          EvTerminateNetwork])
    | Some desktopPortString =>
        match w_openSocket w with
        | INVALID_SOCKET =>
            (Stop (Return 1), w,
             [EvInitializeNetwork (w_initializeNetwork w);
              EvOpenSocket INVALID_SOCKET;
              EvSocketError (lit "ERROR: Couldn't create TCP socket");
              EvTerminateNetwork])
        | Handle fd =>
            match session (Handle fd)
                    (to_ushort (atoi desktopPortString)) argv envp w with
            | (Val code, w1, l) | (Stop (Return code), w1, l) =>
                (Stop (Return code), w1,
                 EvInitializeNetwork (w_initializeNetwork w)
                 :: EvOpenSocket (Handle fd)
                 :: l ++ [EvClose (Handle fd); EvTerminateNetwork])
            | (Stop st, w1, l) =>
                (Stop st, w1,
                 EvInitializeNetwork (w_initializeNetwork w)
                 :: EvOpenSocket (Handle fd) :: l)
            end
        end
    end.
Proof.
  unfold main. unfold bind at 1. unfold initializeNetwork at 1.
  destruct (negb (w_initializeNetwork w =? 0)); [reflexivity|].
  unfold runTrampolineClient.
  destruct (getenv DESKTOP_PORT envp) as [desktopPortString|];
    [|reflexivity].
  unfold bind at 1. unfold bind at 1. unfold openSocket at 1.
  destruct (w_openSocket w) as [|fd]; [reflexivity|].
  unfold bind at 1. unfold call.
  destruct (session (Handle fd) (to_ushort (atoi desktopPortString))
              argv envp w) as [[[code|[code| | |]] w1] l];
    cbn; rewrite ?app_nil_r; try reflexivity.
  all: now rewrite <- ?app_assoc.
Qed.

End RunShape.

(** ** What a computation can log *)

Section Logs.

Context (P : event -> Prop).

Lemma logs_ret {A} (a : A) : logs P (ret a).
Proof. intros w. constructor. Qed.

Lemma logs_halt {A} (s : stop) : logs P (@halt A s).
Proof. intros w. constructor. Qed.

Lemma logs_lift {A} (o : outcome A) : logs P (lift o).
Proof. intros w. constructor. Qed.

Lemma logs_emit (e : event) : P e -> logs P (emit e).
Proof. intros H w. repeat constructor. exact H. Qed.

Lemma logs_bind {A B} (m : M A) (f : A -> M B) :
  logs P m -> (forall a, logs P (f a)) -> logs P (bind m f).
Proof.
  intros Hm Hf w. unfold bind. specialize (Hm w).
  destruct (m w) as [[[a|s] w1] l1]; [|exact Hm].
  specialize (Hf a w1). destruct (f a w1) as [[r w2] l2].
  simpl in *. apply Forall_app. now split.
Qed.

Lemma logs_connectSocket s port :
  (forall r, P (EvConnect s port r)) -> logs P (connectSocket s port).
Proof. intros H w. repeat constructor. apply H. Qed.

Lemma logs_writeSocket s at_ data :
  (forall r, P (EvWrite s at_ data r)) -> logs P (writeSocket s at_ data).
Proof. intros H w. repeat constructor. apply H. Qed.

Lemma logs_readSocket s len :
  (forall r, P (EvRecv s len r)) -> logs P (readSocket s len).
Proof.
  intros H w. unfold readSocket.
  destruct (take (w_socket w) len) as [r rest]. repeat constructor. apply H.
Qed.

Lemma logs_readStdin len :
  (forall r, P (EvReadStdin len r)) -> logs P (readStdin len).
Proof.
  intros H w. unfold readStdin.
  destruct (take (w_stdin w) len) as [r rest]. repeat constructor. apply H.
Qed.

End Logs.

(** Proves [logs P m] for a computation built of the primitives, once [P]
    is known of every event the primitives can log. *)
Ltac logs_tac :=
  repeat match goal with
    | |- logs _ (ret _) => apply logs_ret
    | |- logs _ (halt _) => apply logs_halt
    | |- logs _ (lift _) => apply logs_lift
    | |- logs _ (bind _ _) => apply logs_bind; [|intros ?]
    | |- logs _ (emit _) => apply logs_emit; simpl; trivial
    | |- logs _ (connectSocket _ _) =>
        apply logs_connectSocket; intros ?; simpl; trivial
    | |- logs _ (writeSocket _ _ _) =>
        apply logs_writeSocket; intros ?; simpl; trivial
    | |- logs _ (readSocket _ _) =>
        apply logs_readSocket; intros ?; simpl; trivial
    | |- logs _ (readStdin _) =>
        apply logs_readStdin; intros ?; simpl; trivial
    | |- logs _ (if ?c then _ else _) => destruct c
    | |- logs _ (match ?x with _ => _ end) => destruct x
    | |- logs _ _ => assumption
    end.

Section SessionLogs.

Lemma logs_WRITE_STRING_OR_EXIT (P : event -> Prop) s at_ name str :
  (forall data r, P (EvWrite s at_ data r)) ->
  (forall msg, P (EvSocketError msg)) ->
  logs P (WRITE_STRING_OR_EXIT s at_ name str).
Proof.
  intros Hw He. unfold WRITE_STRING_OR_EXIT, printSocketError.
  apply logs_bind; [apply logs_writeSocket; intros; apply Hw|].
  intros r. destruct (negb (r =? 0)); [|apply logs_ret].
  apply logs_bind; [apply logs_emit, He | intros; apply logs_halt].
Qed.

Lemma session_logs socket port argv envp :
  logs session_event (session socket port argv envp).
Proof.
  assert (HW : forall at_ name str,
             logs session_event (WRITE_STRING_OR_EXIT socket at_ name str))
    by (intros; apply logs_WRITE_STRING_OR_EXIT; simpl; trivial).
  assert (Hargs : forall args,
             logs session_event (sendArgumentList socket args)).
  { induction args as [|a args IH]; cbn [sendArgumentList]; logs_tac;
      apply HW. }
  assert (Henv : forall arr count idx,
             logs session_event (sendEnvVars socket arr idx count)).
  { induction count as [|count IH]; intros idx; cbn [sendEnvVars];
      logs_tac; try apply HW; try apply IH. }
  assert (Hloop : forall fuel total,
             logs session_event (relayStdinLoop fuel socket total)).
  { induction fuel as [|fuel IH]; intros total; cbn [relayStdinLoop];
      unfold fprintf_stderr, printSocketError; logs_tac; try apply IH. }
  assert (Hpay : forall fuel len acc,
             logs session_event (readPayload fuel socket len acc)).
  { induction fuel as [|fuel IH]; intros len acc; cbn [readPayload];
      unfold printSocketError; logs_tac; try apply IH. }
  assert (Hread : forall size,
             logs session_event (readDelimitedString socket size)).
  { intros size. unfold readDelimitedString, fprintf_stderr, printSocketError.
    logs_tac; apply Hpay. }
  unfold session, handshake, sendArguments, sendEnvironment, relayStdin,
    relayOutput, printSocketError, fprintf_stderr, fprintf_stdout.
  logs_tac; try apply HW; try apply Hargs; try apply Henv; try apply Hread.
  all: intros w; apply Hloop.
Qed.

End SessionLogs.

(** ** The port configuration *)

(** C3, as the code has it.  Without a [DESKTOP_PORT] entry in the
    environment [main] returns 1 and has not touched any socket: nothing is
    opened, connected, written, read or closed.  With an entry, whatever its
    value, and the network layer initialised, [main] opens a socket, and
    when it has one the next thing it does is to connect it to the port
    [atoi] makes of the value. *)
Theorem port_configuration (argv envp : list bytes) (w : world) :
  (getenv DESKTOP_PORT envp = None ->
   exists log,
     main argv envp w = (Stop (Return 1), w, log)
     /\ Forall (fun e => ~ socket_event e) log)
  /\ (forall value,
        getenv DESKTOP_PORT envp = Some value ->
        w_initializeNetwork w = 0 ->
        exists rest,
          snd (main argv envp w)
          = EvInitializeNetwork 0 :: EvOpenSocket (w_openSocket w) :: rest
          /\ forall fd, w_openSocket w = Handle fd ->
                exists rest',
                  rest = EvConnect (Handle fd) (to_ushort (atoi value))
                           (w_connectSocket w) :: rest').
Proof.
  split.
  - intros Hport. rewrite main_eq, Hport.
    destruct (negb (w_initializeNetwork w =? 0));
      eexists; (split; [reflexivity|]); repeat constructor; simpl; tauto.
  - intros value Hport Hinit. rewrite main_eq, Hport, Hinit. cbn [Z.eqb negb].
    destruct (w_openSocket w) as [|fd] eqn:Eopen.
    + eexists. split; [reflexivity|]. intros fd Hfd. discriminate Hfd.
    + rewrite session_eq.
      assert (Hh : exists w1 r1 l1,
                 handshake (Handle fd) (to_ushort (atoi value)) argv envp w
                 = (r1, w1,
                    EvConnect (Handle fd) (to_ushort (atoi value))
                      (w_connectSocket w) :: l1)).
      { unfold handshake. unfold bind at 1. unfold connectSocket at 1.
        destruct (negb (w_connectSocket w =? 0));
          match goal with
          | |- context [match ?x with _ => _ end] =>
              destruct x as [[r1 w1] l1]
          end; cbn [app]; eauto. }
      destruct Hh as (w1 & r1 & l1 & ->).
      destruct r1 as [[]|st].
      * destruct (relayStdinLoop _ _ _ w1) as [[[[]|st] w2] l2].
        -- destruct (relayOutput _ _) as [[[c|[c| | |]] w3] l3];
             cbn [snd app]; eexists; (split; [reflexivity|]);
             intros fd' [= <-]; eauto.
        -- destruct st as [c| | |]; cbn [snd app]; eexists;
             (split; [reflexivity|]); intros fd' [= <-]; eauto.
      * destruct st as [c| | |]; cbn [snd app]; eexists;
          (split; [reflexivity|]); intros fd' [= <-]; eauto.
Qed.

Lemma port_configuration_witness :
  getenv DESKTOP_PORT [lit "HOME=/home/alice"] = None
  /\ exists log,
       main [lit "git"; lit "status"] [lit "HOME=/home/alice"]
         (mkWorld 0 (Handle 3) 0 [] [] [])
       = (Stop (Return 1), mkWorld 0 (Handle 3) 0 [] [] [], log)
       /\ Forall (fun e => ~ socket_event e) log.
Proof.
  split; [reflexivity|].
  apply (proj1 (port_configuration [lit "git"; lit "status"]
                  [lit "HOME=/home/alice"] (mkWorld 0 (Handle 3) 0 [] [] []))).
  reflexivity.
Defined.

(** A port value that is no number is not rejected: [atoi] makes it 0 and
    the socket is opened and connected to port 0.  When the connection is
    refused the exit code is 1, but a socket has been opened; when it is
    accepted the session runs to its end and the exit code is 0. *)
Lemma unparseable_port_opens_socket :
  getenv DESKTOP_PORT [lit "DESKTOP_PORT=abc"] = Some (lit "abc")
  /\ atoi (lit "abc") = 0
  /\ main [lit "git"] [lit "DESKTOP_PORT=abc"]
       (mkWorld 0 (Handle 3) (-1) [] [] [])
     = (Stop (Return 1), mkWorld 0 (Handle 3) (-1) [] [] [],
        [EvInitializeNetwork 0; EvOpenSocket (Handle 3);
         EvConnect (Handle 3) 0 (-1);
         EvSocketError (lit "ERROR: Couldn't connect to 127.0.0.1:0");
         EvClose (Handle 3); EvTerminateNetwork])
  /\ exit_code
       (fst (fst (main [lit "git"] [lit "DESKTOP_PORT=abc"]
                    (mkWorld 0 (Handle 3) 0 [] [RdErr]
                       [RdData (["002"; "000"; "o"; "k"; "000"; "000"]%char)]))))
     = Some 0.
Proof. repeat split; vm_compute; reflexivity. Qed.

(** ** The socket is released *)

(** C7.  Whenever [main] returns (with whatever exit code) after a socket
    has been opened, the last two things it has done are to close that
    socket and to terminate the network layer. *)
Theorem socket_closed_on_every_exit
    (argv envp : list bytes) (w w' : world) (r : outcome Z)
    (log : list event) (code : Z) (fd : Z) :
  main argv envp w = (r, w', log) ->
  exit_code r = Some code ->
  In (EvOpenSocket (Handle fd)) log ->
  exists pre,
    log = pre ++ [EvClose (Handle fd); EvTerminateNetwork]
    /\ Forall (fun e => e <> EvClose (Handle fd)) pre.
Proof.
  intros Hmain Hexit Hopen. rewrite main_eq in Hmain.
  destruct (negb (w_initializeNetwork w =? 0)).
  { injection Hmain as <- <- <-.
    destruct Hopen as [E|[]]; discriminate E. }
  destruct (getenv DESKTOP_PORT envp) as [portString|].
  2:{ injection Hmain as <- <- <-. simpl in Hopen.
      repeat (destruct Hopen as [E|Hopen]; [discriminate E|]).
      destruct Hopen. }
  destruct (w_openSocket w) as [|fd0].
  { injection Hmain as <- <- <-. simpl in Hopen.
    repeat (destruct Hopen as [E|Hopen]; [discriminate E|]).
    destruct Hopen. }
  pose proof (session_logs (Handle fd0) (to_ushort (atoi portString))
                argv envp w) as Hlogs.
  destruct (session (Handle fd0) (to_ushort (atoi portString)) argv envp w)
    as [[rs w1] l].
  cbn [snd] in Hlogs.
  assert (Hfd : fd = fd0).
  { assert (Hin : In (EvOpenSocket (Handle fd))
                    (EvInitializeNetwork (w_initializeNetwork w)
                     :: EvOpenSocket (Handle fd0) :: l
                     ++ [EvClose (Handle fd0); EvTerminateNetwork])).
    { destruct rs as [c|[c| | |]]; injection Hmain as <- <- <-;
        try discriminate Hexit; try exact Hopen.
      all: destruct Hopen as [E|[E|Hopen]];
        [discriminate E | now (right; left)
        | right; right; apply in_or_app; now left]. }
    destruct Hin as [E|[E|Hin]]; [discriminate E | congruence |].
    apply in_app_or in Hin. destruct Hin as [Hin|Hin].
    - rewrite Forall_forall in Hlogs. destruct (Hlogs _ Hin).
    - destruct Hin as [E|[E|[]]]; discriminate E. }
  subst fd0.
  assert (Hpre : Forall (fun e => e <> EvClose (Handle fd))
                   (EvInitializeNetwork (w_initializeNetwork w)
                    :: EvOpenSocket (Handle fd) :: l)).
  { repeat constructor; try discriminate.
    eapply Forall_impl; [|exact Hlogs].
    intros e He ->. exact He. }
  destruct rs as [c|[c| | |]]; injection Hmain as <- <- <-;
    try discriminate Hexit;
    (exists (EvInitializeNetwork (w_initializeNetwork w)
             :: EvOpenSocket (Handle fd) :: l); split; [reflexivity | exact Hpre]).
Qed.

Lemma socket_closed_on_every_exit_witness :
  exists pre,
    [EvInitializeNetwork 0; EvOpenSocket (Handle 3);
     EvConnect (Handle 3) 1234 (-1);
     EvSocketError (lit "ERROR: Couldn't connect to 127.0.0.1:1234");
     EvClose (Handle 3); EvTerminateNetwork]
    = pre ++ [EvClose (Handle 3); EvTerminateNetwork]
    /\ Forall (fun e => e <> EvClose (Handle 3)) pre.
Proof.
  apply (socket_closed_on_every_exit [lit "git"] [lit "DESKTOP_PORT=1234"]
           (mkWorld 0 (Handle 3) (-1) [] [] [])
           (mkWorld 0 (Handle 3) (-1) [] [] [])
           (Stop (Return 1)) _ 1 3).
  - vm_compute. reflexivity.
  - reflexivity.
  - right. left. reflexivity.
Defined.

(** ** The relay of standard input *)

Section StdinRelay.

Lemma relayStdinLoop_trace socket :
  forall fuel t w r w' l,
    relayStdinLoop fuel socket t w = (r, w', l) ->
    relay_trace socket t l r.
Proof.
  induction fuel as [|fuel IH]; intros t w r w' l E;
    cbn [relayStdinLoop] in E.
  - injection E as <- <- <-. constructor.
  - unfold bind at 1 in E. unfold readStdin at 1 in E.
    destruct (take (w_stdin w) BUFFER_LENGTH) as [[buffer|] rest].
    + unfold bind at 1 in E. unfold writeSocket at 1 in E.
      cbn beta iota zeta in E.
      set (w1 := mkWorld _ _ _ _ rest _) in E.
      destruct (Z.eqb_spec (hd 0 (w_writeSocket w1)) 0) as [E0|NE];
        cbn [negb] in E.
      * rewrite E0 in *.
        destruct buffer as [|b buffer].
        -- cbn in E. injection E as <- <- <-. constructor.
        -- cbn [length Nat.ltb Nat.leb] in E.
           match type of E with
           | context [relayStdinLoop fuel socket ?t' ?w'] =>
               destruct (relayStdinLoop fuel socket t' w')
                 as [[r3 w3] l3] eqn:E3
           end.
           injection E as <- <- <-.
           apply IH in E3.
           apply relay_chunk; [discriminate | exact E3].
      * cbn in E. injection E as <- <- <-.
        apply relay_send_failure. exact NE.
    + destruct (Z.eqb_spec t 0) as [->|NE].
      * cbn in E. injection E as <- <- <-. constructor.
      * cbn in E. injection E as <- <- <-. now constructor.
Qed.

End StdinRelay.

Section StdinReadError.

Lemma forwarded_app (a b : list event) :
  forwarded (a ++ b) = forwarded a + forwarded b.
Proof.
  induction a as [|e a IH]; [reflexivity|].
  destruct e as [| | |s [] data r| | | | | | |]; cbn [app forwarded];
    rewrite IH; lia.
Qed.

Lemma forwarded_nonneg (l : list event) : 0 <= forwarded l.
Proof.
  induction l as [|e l IH]; [reflexivity|].
  destruct e as [| | |s [] data r| | | | | | |]; cbn [forwarded]; try lia.
  destruct (r =? 0); lia.
Qed.

Lemma forwarded_no_stdin (l : list event) :
  Forall (fun e => ~ stdin_event e) l -> forwarded l = 0.
Proof.
  induction 1 as [|e l He _ IH]; [reflexivity|].
  destruct e as [| | |s [] data r| | | | | | |]; cbn [forwarded];
    try exact IH; exfalso; apply He; exact I.
Qed.

(** An event that occurs neither in the first nor in the last of three
    logs put end to end occurs in the middle one. *)
Lemma app_split_mid (e : event) (a b c : list event) :
  ~ In e a -> ~ In e c ->
  forall pre post,
    a ++ b ++ c = pre ++ e :: post ->
    exists pre' post',
      b = pre' ++ e :: post' /\ pre = a ++ pre' /\ post = post' ++ c.
Proof.
  intros Ha Hc. induction a as [|x a IH]; intros pre post E.
  - clear Ha. revert pre E.
    induction b as [|y b IHb]; intros pre E; cbn [app] in *.
    + exfalso. apply Hc. rewrite E. apply in_elt.
    + destruct pre as [|p pre]; cbn [app] in E; injection E as -> E.
      * exists [], b. subst post. auto.
      * destruct (IHb pre E) as (pre' & post' & -> & -> & ->).
        exists (p :: pre'), post'. auto.
  - destruct pre as [|p pre]; cbn [app] in E; injection E as -> E.
    + exfalso. apply Ha. now left.
    + destruct (IH (fun H => Ha (or_intror H)) pre post E)
        as (pre' & post' & -> & -> & ->).
      exists pre', post'. auto.
Qed.

Local Notation "'read_error'" := (EvReadStdin BUFFER_LENGTH None).

(** A failing read met before anything has been forwarded is the first
    thing the loop does, and ends it without a fault. *)
Lemma relay_trace_first_error socket l r :
  relay_trace socket 0 l r ->
  forall pre post,
    l = pre ++ read_error :: post ->
    forwarded pre = 0 ->
    pre = [] /\ post = [] /\ r = Val tt.
Proof.
  intros H. remember 0 as t0 eqn:Et0.
  destruct H as [|t Ht|t buffer r Hr|t|t buffer l r Hb H|t];
    intros pre post E Hfw.
  - destruct pre as [|p pre]; cbn [app] in E; injection E as E.
    + now subst post.
    + destruct (app_cons_not_nil _ _ _ H).
  - contradiction.
  - repeat (destruct pre as [|? pre]; cbn [app] in E;
            [discriminate E | injection E as <- E]).
    destruct (app_cons_not_nil _ _ _ E).
  - repeat (destruct pre as [|? pre]; cbn [app] in E;
            [discriminate E | injection E as <- E]).
    destruct (app_cons_not_nil _ _ _ E).
  - do 2 (destruct pre as [|? pre]; cbn [app] in E;
          [discriminate E | injection E as <- E]).
    exfalso. cbn [forwarded Z.eqb] in Hfw.
    pose proof (forwarded_nonneg pre).
    destruct buffer; [congruence | cbn [length] in Hfw; lia].
  - destruct (app_cons_not_nil _ _ _ E).
Qed.

(** A failing read met after something has been forwarded (less than the
    range of [size_t]) ends the loop with the diagnostic and the result
    1. *)
Lemma relay_trace_later_error socket t l r :
  relay_trace socket t l r ->
  forall pre post,
    l = pre ++ read_error :: post ->
    0 <= t -> 0 < t + forwarded pre < SIZE_MODULUS ->
    post = [EvStderr (lit "ERROR: Error reading stdin data")]
    /\ r = Stop (Return 1).
Proof.
  induction 1 as [|t Ht|t buffer r Hr|t|t buffer l r Hb H IH|t];
    intros pre post E Ht0 Hfw.
  - destruct pre as [|p pre]; cbn [app] in E; injection E as E.
    + cbn [forwarded] in Hfw. lia.
    + subst p. destruct (app_cons_not_nil _ _ _ H).
  - destruct pre as [|p pre]; cbn [app] in E; injection E as E.
    + now subst post.
    + destruct pre as [|q pre]; cbn [app] in H; [discriminate H|].
      injection H as _ H. destruct (app_cons_not_nil _ _ _ H).
  - repeat (destruct pre as [|? pre]; cbn [app] in E;
            [discriminate E | injection E as <- E]).
    destruct (app_cons_not_nil _ _ _ E).
  - repeat (destruct pre as [|? pre]; cbn [app] in E;
            [discriminate E | injection E as <- E]).
    destruct (app_cons_not_nil _ _ _ E).
  - do 2 (destruct pre as [|? pre]; cbn [app] in E;
          [discriminate E | injection E as <- E]).
    cbn [forwarded Z.eqb] in Hfw.
    pose proof (forwarded_nonneg pre).
    assert (Hsz : size_add t (Z.of_nat (length buffer))
                  = t + Z.of_nat (length buffer))
      by (unfold size_add; apply Z.mod_small; lia).
    apply (IH pre post E); rewrite Hsz; lia.
  - destruct (app_cons_not_nil _ _ _ E).
Qed.

Lemma relay_trace_no_terminator socket t l r :
  relay_trace socket t l r -> Forall (fun e => ~ terminator_event e) l.
Proof. induction 1; repeat constructor; simpl; tauto. Qed.

Lemma handshake_no_stdin socket port argv envp :
  logs (fun e => ~ stdin_event e) (handshake socket port argv envp).
Proof.
  assert (HW : forall at_ name str,
             at_ <> SiteStdin -> at_ <> SiteTerminator ->
             logs (fun e => ~ stdin_event e)
               (WRITE_STRING_OR_EXIT socket at_ name str)).
  { intros at_ name str H1 H2. apply logs_WRITE_STRING_OR_EXIT.
    - intros data r. now destruct at_.
    - simpl. tauto. }
  assert (Hargs : forall args,
             logs (fun e => ~ stdin_event e) (sendArgumentList socket args)).
  { induction args as [|a args IH]; cbn [sendArgumentList]; logs_tac.
    apply HW; discriminate. }
  assert (Henv : forall arr count idx,
             logs (fun e => ~ stdin_event e)
               (sendEnvVars socket arr idx count)).
  { induction count as [|count IH]; intros idx; cbn [sendEnvVars];
      logs_tac; try apply IH. apply HW; discriminate. }
  unfold handshake, sendArguments, sendEnvironment, printSocketError.
  logs_tac; try tauto; try apply Hargs; try apply Henv;
    apply HW; discriminate.
Qed.

Lemma relayOutput_logs (P : event -> Prop) socket :
  (forall s len r, P (EvRecv s len r)) ->
  (forall text, P (EvStdout text)) ->
  (forall text, P (EvStderr text)) ->
  (forall msg, P (EvSocketError msg)) ->
  logs P (relayOutput socket).
Proof.
  intros Hrecv Hout Herr Hsock.
  assert (Hpay : forall fuel len acc,
             logs P (readPayload fuel socket len acc)).
  { induction fuel as [|fuel IH]; intros len acc; cbn [readPayload];
      unfold printSocketError; logs_tac; auto. }
  assert (Hread : forall size, logs P (readDelimitedString socket size)).
  { intros size. unfold readDelimitedString, fprintf_stderr, printSocketError.
    logs_tac; auto. }
  unfold relayOutput, fprintf_stderr, fprintf_stdout.
  logs_tac; auto.
Qed.

Lemma relayOutput_no_stdin socket :
  logs (fun e => ~ stdin_event e) (relayOutput socket).
Proof. apply relayOutput_logs; simpl; tauto. Qed.

Lemma relayOutput_no_failing_write socket :
  logs (fun e => ~ failing_write e) (relayOutput socket).
Proof. apply relayOutput_logs; simpl; tauto. Qed.

End StdinReadError.

Section StdinReadErrorInRun.

Local Notation "'read_error'" := (EvReadStdin BUFFER_LENGTH None).

Lemma read_error_is_stdin_event : stdin_event read_error.
Proof. exact I. Qed.

Lemma not_in_of_no_stdin (l : list event) :
  Forall (fun e => ~ stdin_event e) l -> ~ In read_error l.
Proof.
  intros H Hin. rewrite Forall_forall in H.
  exact (H _ Hin read_error_is_stdin_event).
Qed.

(** The log of a session around a failing read of standard input. *)
Lemma session_read_error socket port argv envp w r w' l :
  session socket port argv envp w = (r, w', l) ->
  forall (a c : list event) pre post,
    Forall (fun e => ~ stdin_event e) a ->
    Forall (fun e => ~ stdin_event e) c ->
    a ++ l ++ c = pre ++ read_error :: post ->
    (forwarded pre = 0 ->
     Forall (fun e => ~ stdin_event e) pre
     /\ exists res post',
         post = EvWrite socket SiteTerminator [NUL] res :: post'
         /\ Forall (fun e => ~ stdin_event e) post')
    /\ (0 < forwarded pre < SIZE_MODULUS ->
        r = Stop (Return 1)
        /\ post = EvStderr (lit "ERROR: Error reading stdin data") :: c
        /\ Forall (fun e => ~ terminator_event e) pre).
Proof.
  intros Hs a c pre post Ha Hc E. rewrite session_eq in Hs.
  pose proof (handshake_no_stdin socket port argv envp w) as Hh.
  destruct (handshake socket port argv envp w) as [[rh w1] l1].
  cbn [snd] in Hh.
  assert (Hcontra : forall x, Forall (fun e => ~ stdin_event e) x ->
                      pre ++ read_error :: post = x -> False).
  { intros x Hx Ex. apply (not_in_of_no_stdin x Hx).
    rewrite <- Ex. apply in_elt. }
  destruct rh as [[]|st].
  2:{ injection Hs as <- <- <-. exfalso.
      apply (Hcontra (a ++ l1 ++ c)); [|now symmetry].
      repeat (apply Forall_app; split); assumption. }
  destruct (relayStdinLoop (S (source_size (w_stdin w1))) socket 0 w1)
    as [[rl w2] l2] eqn:El.
  apply relayStdinLoop_trace in El.
  pose proof (relayOutput_no_stdin socket (written w2)) as Ho.
  assert (Hsplit : forall tail,
             ~ In read_error tail ->
             l = l1 ++ l2 ++ tail ->
             exists pre' post',
               l2 = pre' ++ read_error :: post'
               /\ pre = (a ++ l1) ++ pre'
               /\ post = post' ++ tail ++ c).
  { intros tail Htail ->.
    apply (app_split_mid read_error (a ++ l1) l2 (tail ++ c)).
    - apply not_in_of_no_stdin, Forall_app. now split.
    - intros Hin. apply in_app_or in Hin. destruct Hin as [Hin|Hin];
        [exact (Htail Hin) | exact (not_in_of_no_stdin c Hc Hin)].
    - rewrite <- E, <- !app_assoc. reflexivity. }
  assert (Hfw : forall pre', pre = (a ++ l1) ++ pre' ->
                  forwarded pre = forwarded pre').
  { intros pre' ->. rewrite forwarded_app.
    rewrite (forwarded_no_stdin (a ++ l1));
      [reflexivity | apply Forall_app; now split]. }
  assert (Hnt : forall x, Forall (fun e => ~ stdin_event e) x ->
                  Forall (fun e => ~ terminator_event e) x).
  { intros x. apply Forall_impl. intros [| | |? [] ? ?| | | | | | |];
      simpl; tauto. }
  destruct rl as [[]|st].
  - destruct (relayOutput socket (written w2)) as [[ro w3] l3].
    cbn [snd] in Ho. injection Hs as <- <- <-.
    destruct (Hsplit (EvWrite socket SiteTerminator [NUL]
                        (hd 0 (w_writeSocket w2)) :: l3))
      as (pre' & post' & E2 & Epre & Epost).
    { intros [Hin|Hin]; [discriminate Hin|].
      exact (not_in_of_no_stdin l3 Ho Hin). }
    { reflexivity. }
    rewrite (Hfw pre' Epre). split.
    + intros Hzero.
      destruct (relay_trace_first_error socket l2 (Val tt) El
                  pre' post' E2 Hzero) as (-> & -> & _).
      subst pre post. rewrite app_nil_r. split.
      * apply Forall_app. now split.
      * exists (hd 0 (w_writeSocket w2)), (l3 ++ c).
        split; [reflexivity | apply Forall_app; now split].
    + intros Hpos.
      destruct (relay_trace_later_error socket 0 l2 (Val tt) El
                  pre' post' E2) as (_ & Habs); [lia | lia |].
      discriminate Habs.
  - injection Hs as <- <- <-.
    destruct (Hsplit []) as (pre' & post' & E2 & Epre & Epost).
    { intros []. }
    { now rewrite app_nil_r. }
    rewrite (Hfw pre' Epre). split.
    + intros Hzero.
      destruct (relay_trace_first_error socket l2 (Stop st) El
                  pre' post' E2 Hzero) as (_ & _ & Habs).
      discriminate Habs.
    + intros Hpos.
      destruct (relay_trace_later_error socket 0 l2 (Stop st) El
                  pre' post' E2) as (-> & Est); [lia | lia |].
      split; [now injection Est as ->|]. split; [now subst post|].
      subst pre. repeat (apply Forall_app; split); auto.
      pose proof (relay_trace_no_terminator _ _ _ _ El) as Hl2.
      rewrite E2 in Hl2. apply Forall_app in Hl2. tauto.
Qed.

End StdinReadErrorInRun.

(** C6.  In any run of [main], consider a read of standard input that
    fails.  If nothing has been forwarded before it, it is the first event
    of the relay, and the next thing the client does is to write the
    terminator byte; no byte of standard input is written and standard input
    is not read again.  If something has been forwarded before it (less
    than the range of [size_t]), the client reports the error, closes the
    socket and exits with code 1, and the terminator byte has not been
    written. *)
Theorem stdin_read_error_handling
    (argv envp : list bytes) (w w' : world) (r : outcome Z)
    (log pre post : list event) :
  main argv envp w = (r, w', log) ->
  log = pre ++ EvReadStdin BUFFER_LENGTH None :: post ->
  (forwarded pre = 0 ->
   Forall (fun e => ~ stdin_event e) pre
   /\ exists socket res post',
       post = EvWrite socket SiteTerminator [NUL] res :: post'
       /\ Forall (fun e => ~ stdin_event e) post')
  /\ (0 < forwarded pre < SIZE_MODULUS ->
      exit_code r = Some 1
      /\ (exists socket,
             post = [EvStderr (lit "ERROR: Error reading stdin data");
                     EvClose socket; EvTerminateNetwork])
      /\ Forall (fun e => ~ terminator_event e) pre).
Proof.
  intros Hmain Hlog. rewrite main_eq in Hmain.
  assert (Hin : In (EvReadStdin BUFFER_LENGTH None) log)
    by (rewrite Hlog; apply in_elt).
  destruct (negb (w_initializeNetwork w =? 0)).
  { injection Hmain as <- <- <-. exfalso.
    repeat (destruct Hin as [Hin|Hin]; [discriminate Hin|]). exact Hin. }
  destruct (getenv DESKTOP_PORT envp) as [portString|].
  2:{ injection Hmain as <- <- <-. exfalso.
      repeat (destruct Hin as [Hin|Hin]; [discriminate Hin|]). exact Hin. }
  destruct (w_openSocket w) as [|fd].
  { injection Hmain as <- <- <-. exfalso.
    repeat (destruct Hin as [Hin|Hin]; [discriminate Hin|]). exact Hin. }
  destruct (session (Handle fd) (to_ushort (atoi portString)) argv envp w)
    as [[rs w1] l] eqn:Es.
  assert (Ha : Forall (fun e => ~ stdin_event e)
                 [EvInitializeNetwork (w_initializeNetwork w);
                  EvOpenSocket (Handle fd)])
    by (repeat constructor; simpl; tauto).
  assert (Hc : Forall (fun e => ~ stdin_event e)
                 [EvClose (Handle fd); EvTerminateNetwork])
    by (repeat constructor; simpl; tauto).
  destruct rs as [code|[code| | |]]; injection Hmain as <- <- <-.
  1,2:
    destruct (session_read_error _ _ _ _ _ _ _ _ Es _ _ pre post Ha Hc Hlog)
      as [HA HB];
    (split; [intros H0; destruct (HA H0) as (Hpre & res & post' & Ep & Hp);
             split; [exact Hpre | now exists (Handle fd), res, post']
            |intros Hpos; destruct (HB Hpos) as (Er & Ep & Hpre);
             first [discriminate Er
                   |injection Er as ->;
                    split; [reflexivity
                           |split; [now exists (Handle fd) | exact Hpre]]]]).
  all:
    rewrite <- (app_nil_r l) in Hlog;
    destruct (session_read_error _ _ _ _ _ _ _ _ Es
                [EvInitializeNetwork (w_initializeNetwork w);
                 EvOpenSocket (Handle fd)] [] pre post Ha (Forall_nil _) Hlog)
      as [HA HB];
    (split; [intros H0; destruct (HA H0) as (Hpre & res & post' & Ep & Hp);
             split; [exact Hpre | now exists (Handle fd), res, post']
            |intros Hpos; destruct (HB Hpos) as (Er & _); discriminate Er]).
Qed.

Lemma stdin_read_error_handling_witness :
  (forwarded
     [EvInitializeNetwork 0; EvOpenSocket (Handle 3);
      EvConnect (Handle 3) 1234 0;
      EvWrite (Handle 3) SiteArgc ["0"%char; NUL] 0;
      EvWrite (Handle 3) SiteEnvc ["0"%char; NUL] 0;
      EvReadStdin BUFFER_LENGTH (Some ["h"%char; "i"%char]);
      EvWrite (Handle 3) SiteStdin ["h"%char; "i"%char] 0] = 2)
  /\ exit_code (Stop (Return 1)) = Some 1
  /\ (exists socket,
         [EvStderr (lit "ERROR: Error reading stdin data");
          EvClose (Handle 3); EvTerminateNetwork]
         = [EvStderr (lit "ERROR: Error reading stdin data");
            EvClose socket; EvTerminateNetwork]).
Proof.
  split; [reflexivity|].
  refine (let H := proj2 (stdin_read_error_handling
            [lit "git"] [lit "DESKTOP_PORT=1234"]
            (mkWorld 0 (Handle 3) 0 [] [RdData ["h"%char; "i"%char]; RdErr] [])
            (mkWorld 0 (Handle 3) 0 [] [] [])
            (Stop (Return 1))
            _
            [EvInitializeNetwork 0; EvOpenSocket (Handle 3);
             EvConnect (Handle 3) 1234 0;
             EvWrite (Handle 3) SiteArgc ["0"%char; NUL] 0;
             EvWrite (Handle 3) SiteEnvc ["0"%char; NUL] 0;
             EvReadStdin BUFFER_LENGTH (Some ["h"%char; "i"%char]);
             EvWrite (Handle 3) SiteStdin ["h"%char; "i"%char] 0]
            [EvStderr (lit "ERROR: Error reading stdin data");
             EvClose (Handle 3); EvTerminateNetwork]
            _ eq_refl) _ in conj (proj1 H) (proj1 (proj2 H))).
  - vm_compute. reflexivity.
  - vm_compute. split; reflexivity.
Defined.

(** ** The runs that succeed *)

Section SuccessfulRun.

Lemma bind_Val_inv {A B} (m : M A) (f : A -> M B) w b w' l :
  bind m f w = (Val b, w', l) ->
  exists a w1 l1 l2,
    m w = (Val a, w1, l1) /\ f a w1 = (Val b, w', l2) /\ l = l1 ++ l2.
Proof.
  unfold bind. destruct (m w) as [[[a|s] w1] l1]; [|discriminate].
  destruct (f a w1) as [[r w2] l2] eqn:Ef. intros E.
  injection E as -> -> <-.
  exists a, w1, l1, l2. auto.
Qed.

Lemma WRITE_STRING_OR_EXIT_val socket at_ name str w u w' l :
  WRITE_STRING_OR_EXIT socket at_ name str w = (Val u, w', l) ->
  l = [sent socket (at_, str)] /\ w' = written w.
Proof.
  unfold WRITE_STRING_OR_EXIT, bind, writeSocket, sent. cbn [fst snd].
  fold (written w).
  destruct (Z.eqb_spec (hd 0 (w_writeSocket w)) 0) as [->|_]; cbn.
  - intros E. injection E as _ <- <-. auto.
  - discriminate.
Qed.

Lemma sendArgumentList_val socket args :
  forall w u w' l,
    sendArgumentList socket args w = (Val u, w', l) ->
    l = map (sent socket) (map (pair SiteArg) args).
Proof.
  induction args as [|a args IH]; intros w u w' l E;
    cbn [sendArgumentList] in E.
  - injection E as _ _ <-. reflexivity.
  - apply bind_Val_inv in E. destruct E as (? & w1 & l1 & l2 & E1 & E2 & ->).
    apply WRITE_STRING_OR_EXIT_val in E1. destruct E1 as [-> _].
    apply IH in E2. now subst l2.
Qed.

Lemma skipn_nth_error {A} (l : list A) :
  forall idx x, nth_error l idx = Some x ->
                skipn idx l = x :: skipn (S idx) l.
Proof.
  induction l as [|y l IH]; intros [|idx] x E; simpl in *;
    try discriminate.
  - now injection E as ->.
  - now apply IH.
Qed.

Lemma sendEnvVars_val socket validEnvVars :
  forall count idx w u w' l items,
    sendEnvVars socket validEnvVars idx count w = (Val u, w', l) ->
    firstn count (skipn idx validEnvVars) = map Some items ->
    l = map (sent socket) (map (pair SiteEnv) items).
Proof.
  induction count as [|count IH]; intros idx w u w' l items E Hitems;
    cbn [sendEnvVars] in E.
  - injection E as _ _ <-. destruct items; [reflexivity | discriminate].
  - destruct (nth_error validEnvVars idx) as [[env|]|] eqn:En;
      try discriminate E.
    rewrite (skipn_nth_error _ _ _ En) in Hitems. cbn [firstn] in Hitems.
    destruct items as [|item items]; [discriminate|].
    cbn [map] in Hitems. injection Hitems as <- Hitems.
    apply bind_Val_inv in E. destruct E as (? & w1 & l1 & l2 & E1 & E2 & ->).
    apply WRITE_STRING_OR_EXIT_val in E1. destruct E1 as [-> _].
    apply (IH _ _ _ _ _ items) in E2; [|exact Hitems]. now subst l2.
Qed.

Lemma sendEnvironment_val socket envp w u w' l :
  sendEnvironment socket envp w = (Val u, w', l) ->
  l = sent socket (SiteEnvc, decimal (Z.of_nat (length (valid_entries envp))))
      :: map (sent socket) (map (pair SiteEnv) (valid_entries envp)).
Proof.
  unfold sendEnvironment. intros E.
  apply bind_Val_inv in E.
  destruct E as ([arr envc] & w1 & l1 & l2 & E1 & E2 & ->).
  unfold lift in E1. injection E1 as E1 <- <-.
  destruct (Nat.le_gt_cases (length (valid_entries envp))
              NUMBER_OF_VALID_ENV_VARS) as [Hle|Hgt].
  - destruct (collectEnv_fits envp (repeat None NUMBER_OF_VALID_ENV_VARS) 0)
      as (stored & Ec & _ & Hfirst);
      [now rewrite repeat_length|].
    change (repeat None NUMBER_OF_VALID_ENV_VARS)
      with [@None bytes; None; None; None] in Ec, Hfirst.
    rewrite Ec in E1. injection E1 as <- <-. cbn [Nat.add firstn app] in *.
    apply bind_Val_inv in E2.
    destruct E2 as (? & w2 & l3 & l4 & E3 & E4 & ->).
    apply WRITE_STRING_OR_EXIT_val in E3. destruct E3 as [-> _].
    apply (sendEnvVars_val _ _ _ _ _ _ _ _ (valid_entries envp)) in E4;
      [now subst l4 | exact Hfirst].
  - change [@None bytes; None; None; None]
      with (repeat (@None bytes) NUMBER_OF_VALID_ENV_VARS) in E1.
    rewrite (collectEnv_overflows envp) in E1;
      [discriminate | simpl; lia | now rewrite repeat_length].
Qed.

Lemma handshake_val socket port argv envp w u w' l :
  handshake socket port argv envp w = (Val u, w', l) ->
  l = EvConnect socket port 0 :: map (sent socket) (header_plan argv envp).
Proof.
  unfold handshake, sendArguments, header_plan. intros E.
  apply bind_Val_inv in E. destruct E as (r & w1 & l1 & l2 & E1 & E2 & ->).
  unfold connectSocket in E1. injection E1 as <- <- <-.
  destruct (Z.eqb_spec (w_connectSocket w) 0) as [->|_]; cbn [negb] in E2.
  2:{ apply bind_Val_inv in E2.
      destruct E2 as (? & ? & ? & ? & _ & E2 & _). discriminate E2. }
  apply bind_Val_inv in E2. destruct E2 as (? & w2 & l3 & l4 & E3 & E4 & ->).
  apply bind_Val_inv in E3. destruct E3 as (? & w3 & l5 & l6 & E5 & E6 & ->).
  apply WRITE_STRING_OR_EXIT_val in E5. destruct E5 as [-> _].
  apply sendArgumentList_val in E6. subst l6.
  apply sendEnvironment_val in E4. subst l4.
  cbn [app map]. f_equal. f_equal. rewrite map_app. reflexivity.
Qed.

Lemma relay_trace_val socket t l :
  relay_trace socket t l (Val tt) -> Forall (relay_ok_event socket) l.
Proof.
  intros H. remember (Val tt) as r eqn:Er.
  induction H; try discriminate Er; repeat constructor; auto.
Qed.

End SuccessfulRun.

Section Reply.

Lemma strlen_terminated (p q : bytes) : strlen (p ++ NUL :: q) = strlen p.
Proof.
  induction p as [|c p IH]; cbn [app strlen].
  - reflexivity.
  - destruct (Ascii.eqb c NUL); [reflexivity | now rewrite IH].
Qed.

Lemma strlen_le_length (p : bytes) : (strlen p <= length p)%nat.
Proof.
  induction p as [|c p IH]; cbn [strlen length]; [lia|].
  destruct (Ascii.eqb c NUL); lia.
Qed.

(** ["%s"] of a buffer prints the bytes before its first zero byte. *)
Lemma cstr_terminated (p q : bytes) : cstr (p ++ NUL :: q) = cstr p.
Proof.
  unfold cstr. rewrite strlen_terminated, firstn_app.
  replace (strlen p - length p)%nat with 0%nat
    by (pose proof (strlen_le_length p); lia).
  cbn [firstn]. apply app_nil_r.
Qed.

Lemma cstr_no_nul (p : bytes) : no_nul p -> cstr p = p.
Proof.
  intros H. unfold cstr. rewrite (strlen_no_nul p H). apply firstn_all.
Qed.

Lemma readPayload_inv socket outputLength :
  forall fuel acc w k buffer w' l,
    readPayload fuel socket outputLength acc w = (Val (k, buffer), w', l) ->
    k <> -1 ->
    exists rs,
      l = recvs socket rs
      /\ buffer = (acc ++ received rs) ++ [NUL]
      /\ k = Z.of_nat (length (acc ++ received rs)).
Proof.
  induction fuel as [|fuel IH]; intros acc w k buffer w' l E Hk;
    cbn [readPayload] in E; [discriminate E|].
  unfold bind at 1 in E. unfold readSocket at 1 in E.
  destruct (take (w_socket w) (outputLength - length acc)) as [[bs|] rest].
  - cbn beta iota zeta in E.
    destruct (0 <? length bs)%nat.
    + match type of E with
      | context [readPayload fuel socket outputLength ?a ?w1] =>
          destruct (readPayload fuel socket outputLength a w1)
            as [[r2 w2] l2] eqn:E2
      end.
      injection E as -> -> <-.
      destruct (IH _ _ _ _ _ _ E2 Hk) as (rs & -> & -> & ->).
      exists ((outputLength - length acc, bs)%nat :: rs).
      unfold recvs, received. cbn [map concat fst snd app].
      rewrite <- !app_assoc. auto.
    + cbn in E. injection E as <- <- _ <-.
      exists [((outputLength - length acc)%nat, bs)].
      unfold recvs, received. cbn [map concat fst snd app].
      rewrite !app_nil_r. auto.
  - cbn in E. injection E as E _ _ _. congruence.
Qed.

Lemma readDelimitedString_inv socket bufferSize w k buffer w' l :
  readDelimitedString socket bufferSize w = (Val (k, buffer), w', l) ->
  k <> -1 ->
  exists header rs,
    l = EvRecv socket 2 (Some header) :: recvs socket rs
    /\ buffer = received rs ++ [NUL]
    /\ k = Z.of_nat (length (received rs)).
Proof.
  unfold readDelimitedString. intros E Hk.
  unfold bind at 1 in E. unfold readSocket at 1 in E.
  destruct (take (w_socket w) 2) as [header rest].
  cbn beta iota zeta in E.
  destruct header as [[|b0 [|b1 [|b2 bs]]]|];
    try (cbn in E; injection E as E _ _ _; congruence).
  destruct (bufferSize <? u16 b0 b1)%nat.
  - cbn in E. injection E as E _ _ _. congruence.
  - match type of E with
    | context [readPayload ?f socket ?n [] ?w1] =>
        destruct (readPayload f socket n [] w1) as [[r2 w2] l2] eqn:E2
    end.
    injection E as -> -> <-.
    destruct (readPayload_inv _ _ _ _ _ _ _ _ _ E2 Hk) as (rs & -> & -> & ->).
    exists [b0; b1], rs. auto.
Qed.

Lemma readPayload_stop socket outputLength :
  forall fuel acc w st w' l,
    readPayload fuel socket outputLength acc w = (Stop st, w', l) ->
    st = OutOfFuel.
Proof.
  induction fuel as [|fuel IH]; intros acc w st w' l E;
    cbn [readPayload] in E; [now injection E as <- _ _|].
  unfold bind at 1 in E. unfold readSocket at 1 in E.
  destruct (take (w_socket w) (outputLength - length acc)) as [[bs|] rest].
  - cbn beta iota zeta in E.
    destruct (0 <? length bs)%nat; [|discriminate E].
    match type of E with
    | context [readPayload fuel socket outputLength ?a ?w1] =>
        destruct (readPayload fuel socket outputLength a w1)
          as [[r2 w2] l2] eqn:E2
    end.
    injection E as -> _ _. exact (IH _ _ _ _ _ E2).
  - discriminate E.
Qed.

Lemma readDelimitedString_stop socket bufferSize w st w' l :
  readDelimitedString socket bufferSize w = (Stop st, w', l) ->
  st = OutOfFuel.
Proof.
  unfold readDelimitedString. intros E.
  unfold bind at 1 in E. unfold readSocket at 1 in E.
  destruct (take (w_socket w) 2) as [header rest].
  cbn beta iota zeta in E.
  destruct header as [[|b0 [|b1 [|b2 bs]]]|]; try discriminate E.
  destruct (bufferSize <? u16 b0 b1)%nat; [discriminate E|].
  match type of E with
  | context [readPayload ?f socket ?n [] ?w1] =>
      destruct (readPayload f socket n [] w1) as [[r2 w2] l2] eqn:E2
  end.
  injection E as -> _ _. exact (readPayload_stop _ _ _ _ _ _ _ _ E2).
Qed.

(** The reply of a session that returns 0: two frames, each read and
    then printed up to its first zero byte. *)
Lemma relayOutput_success socket w r w' l :
  relayOutput socket w = (r, w', l) ->
  exit_code r = Some 0 ->
  exists h1 rs1 h2 rs2,
    l = EvRecv socket 2 (Some h1) :: recvs socket rs1
        ++ EvStdout (cstr (received rs1))
        :: EvRecv socket 2 (Some h2) :: recvs socket rs2
        ++ [EvStderr (cstr (received rs2))].
Proof.
  unfold relayOutput. intros E Hr.
  unfold bind at 1 in E.
  destruct (readDelimitedString socket BUFFER_LENGTH w)
    as [[[[k1 b1]|st] w1] l1] eqn:E1.
  2:{ injection E as <- _ _.
      rewrite (readDelimitedString_stop _ _ _ _ _ _ E1) in Hr.
      discriminate Hr. }
  cbn [fst snd] in E.
  destruct (Z.eqb_spec k1 (-1)) as [->|Hk1].
  { cbn in E. injection E as <- _ _. discriminate Hr. }
  destruct (readDelimitedString_inv _ _ _ _ _ _ _ E1 Hk1)
    as (h1 & rs1 & -> & -> & _).
  unfold bind at 1 in E. unfold fprintf_stdout, emit in E.
  unfold bind at 1 in E.
  destruct (readDelimitedString socket BUFFER_LENGTH w1)
    as [[[[k2 b2]|st] w2] l2] eqn:E2.
  2:{ injection E as <- _ _.
      rewrite (readDelimitedString_stop _ _ _ _ _ _ E2) in Hr.
      discriminate Hr. }
  cbn [fst snd] in E.
  destruct (Z.eqb_spec k2 (-1)) as [->|Hk2].
  { cbn in E. injection E as <- _ _. discriminate Hr. }
  destruct (readDelimitedString_inv _ _ _ _ _ _ _ E2 Hk2)
    as (h2 & rs2 & -> & -> & _).
  cbn in E. injection E as _ _ <-.
  exists h1, rs1, h2, rs2.
  change (received rs1 ++ [NUL]) with (received rs1 ++ NUL :: []).
  change (received rs2 ++ [NUL]) with (received rs2 ++ NUL :: []).
  rewrite !cstr_terminated.
  cbn [app]. rewrite <- ?app_assoc. reflexivity.
Qed.

End Reply.

(** ** How a computation can stop *)

Section Stops.

Context (P : stop -> Prop).

Lemma stops_ret {A} (a : A) : stops P (ret a).
Proof. intros w st w' l E. discriminate E. Qed.

Lemma stops_halt {A} (s : stop) : P s -> stops P (@halt A s).
Proof. intros H w st w' l E. injection E as <- _ _. exact H. Qed.

Lemma stops_bind {A B} (m : M A) (f : A -> M B) :
  stops P m -> (forall a, stops P (f a)) -> stops P (bind m f).
Proof.
  intros Hm Hf w st w' l E. unfold bind in E.
  destruct (m w) as [[[a|s] w1] l1] eqn:Em.
  - destruct (f a w1) as [[r w2] l2] eqn:Ef.
    injection E as -> _ _. exact (Hf _ _ _ _ _ Ef).
  - injection E as -> _ _. exact (Hm _ _ _ _ Em).
Qed.

Lemma stops_emit (e : event) : stops P (emit e).
Proof. intros w st w' l E. discriminate E. Qed.

Lemma stops_connectSocket s port : stops P (connectSocket s port).
Proof. intros w st w' l E. discriminate E. Qed.

Lemma stops_writeSocket s at_ data : stops P (writeSocket s at_ data).
Proof. intros w st w' l E. discriminate E. Qed.

Lemma stops_WRITE_STRING_OR_EXIT s at_ name str :
  P (Return 1) -> stops P (WRITE_STRING_OR_EXIT s at_ name str).
Proof.
  intros H1. unfold WRITE_STRING_OR_EXIT, printSocketError.
  apply stops_bind; [apply stops_writeSocket|].
  intros r. destruct (negb (r =? 0)); [|apply stops_ret].
  apply stops_bind; [apply stops_emit|].
  intros _. now apply stops_halt.
Qed.

Lemma stops_sendArgumentList socket args :
  P (Return 1) -> stops P (sendArgumentList socket args).
Proof.
  intros H1. induction args as [|a args IH]; cbn [sendArgumentList];
    [apply stops_ret|].
  apply stops_bind; [now apply stops_WRITE_STRING_OR_EXIT|].
  intros _. exact IH.
Qed.

End Stops.

Section HandshakeStops.

(** The entries the loop of lines 135-138 loads have all been stored. *)
Lemma sendEnvVars_stops (P : stop -> Prop) socket validEnvVars :
  P (Return 1) ->
  forall count idx items,
    firstn count (skipn idx validEnvVars) = map Some items ->
    length items = count ->
    stops P (sendEnvVars socket validEnvVars idx count).
Proof.
  intros H1. induction count as [|count IH]; intros idx items Hitems Hlen;
    cbn [sendEnvVars]; [apply stops_ret|].
  destruct items as [|item items]; [discriminate Hlen|].
  injection Hlen as Hlen.
  destruct (nth_error validEnvVars idx) as [x|] eqn:En.
  - rewrite (skipn_nth_error _ _ _ En) in Hitems. cbn [firstn map] in Hitems.
    injection Hitems as -> Hitems.
    apply stops_bind; [now apply stops_WRITE_STRING_OR_EXIT|].
    intros _. exact (IH (S idx) items Hitems Hlen).
  - apply nth_error_None in En.
    rewrite skipn_all2 in Hitems by exact En.
    rewrite firstn_nil in Hitems. discriminate Hitems.
Qed.

Lemma sendEnvironment_stops (P : stop -> Prop) socket envp :
  P (Return 1) ->
  ((4 < length (valid_entries envp))%nat -> P (OutOfBounds 4)) ->
  stops P (sendEnvironment socket envp).
Proof.
  intros H1 H4. unfold sendEnvironment.
  destruct (Nat.le_gt_cases (length (valid_entries envp))
              NUMBER_OF_VALID_ENV_VARS) as [Hle|Hgt].
  - destruct (collectEnv_fits envp (repeat None NUMBER_OF_VALID_ENV_VARS) 0)
      as (stored & Ec & _ & Hfirst);
      [now rewrite repeat_length|].
    cbn [Nat.add firstn app] in Ec, Hfirst.
    intros w st w' l E. unfold bind at 1 in E. unfold lift at 1 in E.
    rewrite Ec in E.
    destruct (bind _ _ w) as [[r w2] l2] eqn:E2 in E.
    injection E as -> _ _. revert E2.
    apply stops_bind; [now apply stops_WRITE_STRING_OR_EXIT|].
    intros _.
    apply (sendEnvVars_stops P socket stored H1 _ 0 (valid_entries envp));
      [exact Hfirst | reflexivity].
  - intros w st w' l E. unfold bind at 1 in E. unfold lift at 1 in E.
    rewrite (collectEnv_overflows envp) in E;
      [|simpl; lia | now rewrite repeat_length].
    injection E as <- _ _. apply H4. exact Hgt.
Qed.

Lemma handshake_stops (P : stop -> Prop) socket port argv envp :
  P (Return 1) ->
  ((4 < length (valid_entries envp))%nat -> P (OutOfBounds 4)) ->
  stops P (handshake socket port argv envp).
Proof.
  intros H1 H4. unfold handshake, sendArguments, printSocketError.
  apply stops_bind; [apply stops_connectSocket|].
  intros r. destruct (negb (r =? 0)).
  - apply stops_bind; [apply stops_emit|].
    intros _. now apply stops_halt.
  - apply stops_bind.
    + apply stops_bind; [now apply stops_WRITE_STRING_OR_EXIT|].
      intros _. now apply stops_sendArgumentList.
    + intros _. now apply sendEnvironment_stops.
Qed.

Lemma relay_trace_stop socket t l st :
  relay_trace socket t l (Stop st) -> st = Return 1 \/ st = OutOfFuel.
Proof.
  intros H. remember (Stop st) as r eqn:Er.
  induction H; try discriminate Er; auto; injection Er as <-; auto.
Qed.

End HandshakeStops.

(** The whole log of a run that exits with code 0: the socket is opened and
    connected; the strings of the handshake are written in the order of
    [header_plan], every write succeeding; standard input is relayed; the
    terminator is written; the two frames of the reply are read, each
    printed after it has been read; the socket is closed. *)
Lemma successful_run_log
    (argv envp : list bytes) (w w' : world) (r : outcome Z)
    (log : list event) :
  main argv envp w = (r, w', log) ->
  exit_code r = Some 0 ->
  exists fd port relay res h1 rs1 h2 rs2,
    log =
      [EvInitializeNetwork 0; EvOpenSocket (Handle fd);
       EvConnect (Handle fd) port 0]
      ++ map (sent (Handle fd)) (header_plan argv envp)
      ++ relay
      ++ EvWrite (Handle fd) SiteTerminator [NUL] res
      :: EvRecv (Handle fd) 2 (Some h1) :: recvs (Handle fd) rs1
      ++ EvStdout (cstr (received rs1))
      :: EvRecv (Handle fd) 2 (Some h2) :: recvs (Handle fd) rs2
      ++ [EvStderr (cstr (received rs2));
          EvClose (Handle fd); EvTerminateNetwork]
    /\ Forall (relay_ok_event (Handle fd)) relay.
Proof.
  intros Hmain Hexit. rewrite main_eq in Hmain.
  destruct (Z.eqb_spec (w_initializeNetwork w) 0) as [E0|_]; cbn [negb] in Hmain.
  2:{ injection Hmain as <- _ _. discriminate Hexit. }
  rewrite E0 in Hmain.
  destruct (getenv DESKTOP_PORT envp) as [portString|].
  2:{ injection Hmain as <- _ _. discriminate Hexit. }
  destruct (w_openSocket w) as [|fd].
  { injection Hmain as <- _ _. discriminate Hexit. }
  rewrite session_eq in Hmain.
  set (port := to_ushort (atoi portString)) in *.
  destruct (handshake (Handle fd) port argv envp w) as [[[[]|st] w1] l1] eqn:Eh.
  2:{ destruct st as [c| | |]; injection Hmain as <- _ _;
        try discriminate Hexit.
      apply (handshake_stops (fun st => forall c, st = Return c -> c = 1))
        in Eh; [| now intros ? [= <-] | discriminate].
      rewrite (Eh c eq_refl) in Hexit. discriminate Hexit. }
  apply handshake_val in Eh. subst l1.
  destruct (relayStdinLoop (S (source_size (w_stdin w1))) (Handle fd) 0 w1)
    as [[[[]|st] w2] l2] eqn:El.
  2:{ apply relayStdinLoop_trace, relay_trace_stop in El.
      destruct El as [-> | ->]; injection Hmain as <- _ _;
        discriminate Hexit. }
  apply relayStdinLoop_trace, relay_trace_val in El.
  destruct (relayOutput (Handle fd) (written w2)) as [[ro w3] l3] eqn:Eo.
  assert (Hro : exit_code ro = Some 0).
  { destruct ro as [c|[c| | |]]; injection Hmain as <- _ _; exact Hexit. }
  destruct (relayOutput_success _ _ _ _ _ Eo Hro) as (h1 & rs1 & h2 & rs2 & ->).
  exists fd, port, l2, (hd 0 (w_writeSocket w2)), h1, rs1, h2, rs2.
  split; [|exact El].
  destruct ro as [c|[c| | |]]; try discriminate Hro;
    injection Hmain as _ _ <-;
    repeat (rewrite <- app_assoc || rewrite <- app_comm_cons); reflexivity.
Qed.

(** ** The reply is printed *)

(** C9, as the code has it.  In a run that exits with code 0 the client has
    read two frames; right after the reads of the first one it prints to
    standard output the bytes received for it, up to their first zero byte
    (all of them when none is zero), and right after the reads of the second
    one it prints the bytes received for that one to standard error in the
    same way; it prints nothing else. *)
Theorem reply_is_printed
    (argv envp : list bytes) (w w' : world) (r : outcome Z)
    (log : list event) :
  main argv envp w = (r, w', log) ->
  exit_code r = Some 0 ->
  exists pre socket h1 rs1 h2 rs2,
    log = pre
          ++ EvRecv socket 2 (Some h1) :: recvs socket rs1
          ++ EvStdout (cstr (received rs1))
          :: EvRecv socket 2 (Some h2) :: recvs socket rs2
          ++ [EvStderr (cstr (received rs2));
              EvClose socket; EvTerminateNetwork]
    /\ Forall (fun e => ~ output_event e) pre
    /\ (no_nul (received rs1) -> cstr (received rs1) = received rs1)
    /\ (no_nul (received rs2) -> cstr (received rs2) = received rs2).
Proof.
  intros Hmain Hexit.
  destruct (successful_run_log argv envp w w' r log Hmain Hexit)
    as (fd & port & relay & res & h1 & rs1 & h2 & rs2 & -> & Hrelay).
  exists ([EvInitializeNetwork 0; EvOpenSocket (Handle fd);
           EvConnect (Handle fd) port 0]
          ++ map (sent (Handle fd)) (header_plan argv envp)
          ++ relay ++ [EvWrite (Handle fd) SiteTerminator [NUL] res]),
    (Handle fd), h1, rs1, h2, rs2.
  split; [|split; [|split; apply cstr_no_nul]].
  - repeat (rewrite <- app_assoc || rewrite <- app_comm_cons). reflexivity.
  - repeat (apply Forall_app; split).
    + repeat constructor; simpl; tauto.
    + apply Forall_map, Forall_forall. intros item _. simpl. tauto.
    + eapply Forall_impl; [|exact Hrelay].
      intros [| | |? [] ? ?| | | | | | |]; simpl; tauto.
    + repeat constructor. simpl. tauto.
Qed.

Lemma reply_is_printed_witness :
  exists pre socket h1 rs1 h2 rs2,
    [EvInitializeNetwork 0; EvOpenSocket (Handle 3);
     EvConnect (Handle 3) 1234 0;
     EvWrite (Handle 3) SiteArgc ["0"%char; NUL] 0;
     EvWrite (Handle 3) SiteEnvc ["0"%char; NUL] 0;
     EvReadStdin BUFFER_LENGTH None;
     EvWrite (Handle 3) SiteTerminator [NUL] 0;
     EvRecv (Handle 3) 2 (Some ["002"%char; NUL]);
     EvRecv (Handle 3) 2 (Some ["o"%char; "k"%char]);
     EvRecv (Handle 3) 0 (Some []);
     EvStdout ["o"%char; "k"%char];
     EvRecv (Handle 3) 2 (Some [NUL; NUL]);
     EvRecv (Handle 3) 0 (Some []);
     EvStderr [];
     EvClose (Handle 3); EvTerminateNetwork]
    = pre
      ++ EvRecv socket 2 (Some h1) :: recvs socket rs1
      ++ EvStdout (cstr (received rs1))
      :: EvRecv socket 2 (Some h2) :: recvs socket rs2
      ++ [EvStderr (cstr (received rs2));
          EvClose socket; EvTerminateNetwork]
    /\ Forall (fun e => ~ output_event e) pre
    /\ (no_nul (received rs1) -> cstr (received rs1) = received rs1)
    /\ (no_nul (received rs2) -> cstr (received rs2) = received rs2).
Proof.
  apply (reply_is_printed [lit "git"] [lit "DESKTOP_PORT=1234"]
           (mkWorld 0 (Handle 3) 0 [] [RdErr]
              [RdData ["002"%char; NUL; "o"%char; "k"%char; NUL; NUL]])
           (mkWorld 0 (Handle 3) 0 [] [] [])
           (Stop (Return 0))).
  - vm_compute. reflexivity.
  - reflexivity.
Defined.

(** A payload with a zero byte inside is not printed in full: of the three
    bytes "a", 0, "b" received for the first frame only "a" reaches standard
    output, and the run exits with code 0. *)
Lemma reply_with_zero_byte_is_cut :
  main [lit "git"] [lit "DESKTOP_PORT=1234"]
    (mkWorld 0 (Handle 3) 0 [] [RdErr]
       [RdData ["003"%char; NUL; "a"%char; NUL; "b"%char; NUL; NUL]])
  = (Stop (Return 0), mkWorld 0 (Handle 3) 0 [] [] [],
     [EvInitializeNetwork 0; EvOpenSocket (Handle 3);
      EvConnect (Handle 3) 1234 0;
      EvWrite (Handle 3) SiteArgc ["0"%char; NUL] 0;
      EvWrite (Handle 3) SiteEnvc ["0"%char; NUL] 0;
      EvReadStdin BUFFER_LENGTH None;
      EvWrite (Handle 3) SiteTerminator [NUL] 0;
      EvRecv (Handle 3) 2 (Some ["003"%char; NUL]);
      EvRecv (Handle 3) 3 (Some ["a"%char; NUL; "b"%char]);
      EvRecv (Handle 3) 0 (Some []);
      EvStdout ["a"%char];
      EvRecv (Handle 3) 2 (Some [NUL; NUL]);
      EvRecv (Handle 3) 0 (Some []);
      EvStderr [];
      EvClose (Handle 3); EvTerminateNetwork])
  /\ ["a"%char] <> ["a"%char; NUL; "b"%char].
Proof. split; [vm_compute; reflexivity | discriminate]. Qed.

(** ** Decoding a frame *)

Section FrameDecoding.

Lemma uchar_ascii_of_nat (k : nat) :
  (k < 256)%nat -> uchar (ascii_of_nat k) = Z.of_nat k.
Proof.
  intros H. unfold uchar, ascii_of_nat.
  rewrite N_ascii_embedding by lia. lia.
Qed.

Lemma u16_of_u16_bytes (n : nat) :
  (n < 256 * 256)%nat ->
  u16 (ascii_of_nat (n mod 256)) (ascii_of_nat (n / 256)) = n.
Proof.
  intros H. unfold u16.
  pose proof (Nat.div_mod_eq n 256) as Hdm.
  pose proof (Nat.mod_upper_bound n 256 ltac:(lia)) as Hm.
  assert (Hd : (n / 256 < 256)%nat)
    by (apply Nat.Div0.div_lt_upper_bound; lia).
  rewrite !uchar_ascii_of_nat by lia. lia.
Qed.

Lemma take_nothing (src : list segment) :
  no_error_next src -> exists rest, take src 0 = (Some [], rest).
Proof.
  destruct src as [|[|bs] src]; cbn [take no_error_next]; intros H.
  - now eexists.
  - destruct H.
  - destruct bs as [|b bs]; cbn; now eexists.
Qed.

(** The loop gathers a payload that arrives in any number of pieces. *)
Lemma readPayload_segments socket outputLength rest :
  no_error_next rest ->
  forall segs acc fuel w,
    w_socket w = map RdData segs ++ rest ->
    Forall (fun s => s <> []) segs ->
    (length acc + length (concat segs) = outputLength)%nat ->
    (length (concat segs) < fuel)%nat ->
    exists w' l,
      readPayload fuel socket outputLength acc w
      = (Val (Z.of_nat outputLength, (acc ++ concat segs) ++ [NUL]), w', l).
Proof.
  intros Hrest.
  induction segs as [|s segs IH]; intros acc fuel w Hsock Hne Hlen Hfuel;
    (destruct fuel as [|fuel]; [lia|]); cbn [readPayload];
    unfold bind at 1; unfold readSocket at 1; rewrite Hsock;
    cbn [map app concat] in *.
  - cbn [length] in Hlen.
    replace (outputLength - length acc)%nat with 0%nat by lia.
    destruct (take_nothing rest Hrest) as (rest' & ->).
    cbn. rewrite !app_nil_r.
    replace (length acc) with outputLength by lia. eauto.
  - apply Forall_cons_iff in Hne. destruct Hne as [Hs Hne'].
    rewrite length_app in Hlen, Hfuel.
    cbn [take].
    destruct (Nat.leb_spec (length s) (outputLength - length acc)); [|lia].
    cbn beta iota zeta.
    destruct (Nat.ltb_spec 0 (length s)) as [_|Hz];
      [|destruct s; [congruence | cbn [length] in Hz; lia]].
    assert (Hpos : (0 < length s)%nat)
      by (destruct s; [congruence | cbn [length]; lia]).
    match goal with
    | |- context [readPayload fuel socket outputLength ?a ?w1] =>
        destruct (IH a fuel w1) as (w' & l & E);
          [reflexivity | assumption | rewrite length_app; lia | lia
          | rewrite E]
    end.
    rewrite <- (app_assoc acc s (concat segs)). eauto.
Qed.

End FrameDecoding.

(** C8, as the code has it.  The decoder reads back a frame of the
    specification: when the socket delivers, without error and in any
    number of pieces (the first one holding the two bytes of the prefix),
    the length prefix of a payload no longer than the buffer followed by
    the payload, [readDelimitedString] returns the length of the payload and
    leaves in the buffer the payload, unchanged, and a zero byte after it. *)
Theorem readDelimitedString_reads_frame
    (socket : SOCKET) (bufferSize : nat) (w : world)
    (payload : bytes) (segs : list bytes) (rest : list segment) :
  (length payload <= bufferSize)%nat ->
  (length payload < 256 * 256)%nat ->
  w_socket w = map RdData segs ++ rest ->
  concat segs = frame payload ->
  Forall (fun s => s <> []) segs ->
  (2 <= length (hd [] segs))%nat ->
  no_error_next rest ->
  exists w' l,
    readDelimitedString socket bufferSize w
    = (Val (Z.of_nat (length payload), payload ++ [NUL]), w', l).
Proof.
  intros Hfit Hrange Hsock Hcat Hne Hhd Hrest.
  destruct segs as [|s0 segs]; [cbn in Hhd; lia|].
  cbn [hd] in Hhd. apply Forall_cons_iff in Hne. destruct Hne as [_ Hne'].
  destruct s0 as [|b0 [|b1 s0]]; cbn [length] in Hhd; try lia.
  pose proof (u16_of_u16_bytes _ Hrange) as Hlen.
  unfold frame, u16_bytes in Hcat.
  remember (ascii_of_nat (length payload mod 256)) as c0 eqn:Ec0.
  remember (ascii_of_nat (length payload / 256)) as c1 eqn:Ec1.
  clear Ec0 Ec1. cbn [concat app] in Hcat.
  injection Hcat as -> -> Hcat.
  unfold readDelimitedString. unfold bind at 1. unfold readSocket at 1.
  rewrite Hsock. cbn [map app take length].
  assert (Hnext : forall w1 segs',
             w_socket w1 = map RdData segs' ++ rest ->
             concat segs' = payload ->
             Forall (fun s => s <> []) segs' ->
             exists w' l,
               readPayload (S (length payload)) socket (length payload) [] w1
               = (Val (Z.of_nat (length payload), payload ++ [NUL]), w', l)).
  { intros w1 segs' Hs1 Hc1 Hn1.
    destruct (readPayload_segments socket (length payload) rest Hrest
                segs' [] (S (length payload)) w1 Hs1 Hn1)
      as (w' & l & E).
    - now rewrite Hc1.
    - rewrite Hc1. lia.
    - rewrite Hc1 in E. eauto. }
  destruct s0 as [|b2 s0]; cbn [Nat.leb length firstn skipn].
  - cbn beta iota zeta. rewrite Hlen.
    destruct (Nat.ltb_spec bufferSize (length payload)); [lia|].
    match goal with
    | |- context [readPayload _ _ _ [] ?w1] =>
        destruct (Hnext w1 segs) as (w' & l & ->)
    end; try assumption; try reflexivity.
    eauto.
  - cbn beta iota zeta. rewrite Hlen.
    destruct (Nat.ltb_spec bufferSize (length payload)); [lia|].
    match goal with
    | |- context [readPayload _ _ _ [] ?w1] =>
        destruct (Hnext w1 ((b2 :: s0) :: segs)) as (w' & l & ->)
    end; try assumption; try reflexivity.
    + constructor; [discriminate | assumption].
    + eauto.
Qed.

Lemma readDelimitedString_reads_frame_witness :
  exists w' l,
    readDelimitedString (Handle 3) BUFFER_LENGTH
      (mkWorld 0 (Handle 3) 0 [] []
         [RdData ["006"%char; NUL; "c"%char];
          RdData ["l"%char; "e"%char; "a"%char];
          RdData ["n"%char; "010"%char];
          RdData [NUL; NUL]])
    = (Val (Z.of_nat (length (lit "clean" ++ ["010"%char])),
            (lit "clean" ++ ["010"%char]) ++ [NUL]), w', l).
Proof.
  apply (readDelimitedString_reads_frame (Handle 3) BUFFER_LENGTH
           (mkWorld 0 (Handle 3) 0 [] []
              [RdData ["006"%char; NUL; "c"%char];
               RdData ["l"%char; "e"%char; "a"%char];
               RdData ["n"%char; "010"%char];
               RdData [NUL; NUL]])
           (lit "clean" ++ ["010"%char])
           [["006"%char; NUL; "c"%char];
            ["l"%char; "e"%char; "a"%char];
            ["n"%char; "010"%char]]
           [RdData [NUL; NUL]]).
  - vm_compute. lia.
  - change (6 < 256 * 256)%nat. lia.
  - vm_compute. reflexivity.
  - vm_compute. reflexivity.
  - repeat constructor; discriminate.
  - vm_compute. lia.
  - exact I.
Defined.

(** What the client's encoder writes is not such a frame: the macro sends
    the characters of the string and a zero byte, without a length before
    them, and the decoder, given these bytes, takes the first two characters
    for a length (here 25185) and fails. *)
Lemma encoder_output_is_not_decoded :
  (length (lit "ab") <= BUFFER_LENGTH)%nat
  /\ WRITE_STRING_OR_EXIT (Handle 3) SiteArg "argument" (lit "ab")
       (mkWorld 0 (Handle 3) 0 [] [] [])
     = (Val tt, mkWorld 0 (Handle 3) 0 [] [] [],
        [EvWrite (Handle 3) SiteArg ["a"%char; "b"%char; NUL] 0])
  /\ readDelimitedString (Handle 3) BUFFER_LENGTH
       (mkWorld 0 (Handle 3) 0 [] [] [RdData ["a"%char; "b"%char; NUL]])
     = (Val (-1, []), mkWorld 0 (Handle 3) 0 [] [] [RdData [NUL]],
        [EvRecv (Handle 3) 2 (Some ["a"%char; "b"%char]);
         EvStderr (lit "ERROR: received string is bigger than buffer (25185 > 4096)")]).
Proof.
  split; [vm_compute; lia|]. split; vm_compute; reflexivity.
Qed.

(** ** Every run ends *)

Section Termination.

Lemma take_length src len bs rest :
  take src len = (Some bs, rest) -> (length bs <= len)%nat.
Proof.
  destruct src as [|[|b] src]; cbn [take]; intros E.
  - injection E as <- _. cbn [length]. lia.
  - discriminate E.
  - destruct (Nat.leb_spec (length b) len); injection E as <- _;
      [assumption | rewrite length_firstn; lia].
Qed.






End Termination.


(** ** Writes that fail *)

Section Guarded.

Lemma guarded_of_logs {A} (m : M A) :
  logs (fun e => ~ failing_write e) m -> guarded m.
Proof.
  intros H w r w' l pre e post E -> He. exfalso.
  specialize (H w). rewrite E in H. cbn [snd] in H.
  rewrite Forall_forall in H. apply (H e); [apply in_elt | exact He].
Qed.

Lemma guarded_bind {A B} (m : M A) (f : A -> M B) :
  guarded m -> (forall a, guarded (f a)) -> guarded (bind m f).
Proof.
  intros Hm Hf w r w' l pre e post E El He. unfold bind in E.
  destruct (m w) as [[[a|s] w1] l1] eqn:Em.
  - destruct (f a w1) as [[r2 w2] l2] eqn:Ef.
    injection E as <- <- <-.
    symmetry in El. apply app_eq_app in El.
    destruct El as (x & [[E1 E2]|[E1 E2]]).
    + exact (Hf a w1 r2 w2 l2 x e post Ef E2 He).
    + destruct x as [|y x]; cbn [app] in E2.
      * rewrite app_nil_r in E1. subst pre.
        exact (Hf a w1 r2 w2 l2 [] e post Ef (eq_sym E2) He).
      * injection E2 as <- ->.
        destruct (Hm w (Val a) w1 l1 pre e x Em E1 He) as [Habs _].
        discriminate Habs.
  - injection E as <- <- <-.
    destruct (Hm w _ _ _ pre e post Em El He) as [Es Hpost].
    injection Es as ->. now split.
Qed.

Lemma guarded_WRITE_STRING_OR_EXIT socket at_ name str :
  guarded (WRITE_STRING_OR_EXIT socket at_ name str).
Proof.
  intros w r w' l pre e post E El He.
  unfold WRITE_STRING_OR_EXIT, bind, writeSocket, printSocketError, emit,
    halt, ret in E.
  destruct (Z.eqb_spec (hd 0 (w_writeSocket w)) 0) as [E0|NE];
    cbn in E; injection E as <- <- <-.
  - destruct pre as [|p pre]; cbn [app] in El; injection El as <- El.
    + destruct He as [_ He]. contradiction.
    + destruct (app_cons_not_nil _ _ _ El).
  - destruct pre as [|p pre]; cbn [app] in El; injection El as <- El.
    + split; [reflexivity|]. subst post. eauto.
    + destruct pre as [|q pre]; cbn [app] in El; injection El as <- El.
      * destruct He.
      * destruct (app_cons_not_nil _ _ _ El).
Qed.

Lemma guarded_relay_trace socket t l r :
  relay_trace socket t l r ->
  forall pre e post,
    l = pre ++ e :: post -> failing_write e ->
    r = Stop (Return 1) /\ exists msg, post = [EvSocketError msg].
Proof.
  induction 1 as [|t Ht|t buffer r Hr|t|t buffer l r Hb H IH|t];
    intros pre e post E He.
  1,2,4:
    repeat (destruct pre as [|? pre]; cbn [app] in E;
            [injection E as <- E; try destruct He as [_ He];
             contradiction
            |injection E as _ E]);
    destruct (app_cons_not_nil _ _ _ E).
  - destruct pre as [|? pre]; cbn [app] in E;
      [injection E as <- E; destruct He | injection E as _ E].
    destruct pre as [|? pre]; cbn [app] in E;
      [injection E as <- E; subst post; eauto | injection E as _ E].
    destruct pre as [|? pre]; cbn [app] in E;
      [injection E as <- E; destruct He | injection E as _ E].
    destruct (app_cons_not_nil _ _ _ E).
  - destruct pre as [|? pre]; cbn [app] in E;
      [injection E as <- E; destruct He | injection E as _ E].
    destruct pre as [|? pre]; cbn [app] in E;
      [injection E as <- E; destruct He as [_ He]; contradiction
      |injection E as _ E].
    exact (IH pre e post E He).
  - destruct (app_cons_not_nil _ _ _ E).
Qed.

Lemma guarded_session socket port argv envp :
  guarded (session socket port argv envp).
Proof.
  assert (Hargs : forall args, guarded (sendArgumentList socket args)).
  { induction args as [|a args IH]; cbn [sendArgumentList].
    - apply guarded_of_logs. logs_tac.
    - apply guarded_bind; [apply guarded_WRITE_STRING_OR_EXIT|].
      intros _. exact IH. }
  assert (Henv : forall arr count idx,
             guarded (sendEnvVars socket arr idx count)).
  { induction count as [|count IH]; intros idx; cbn [sendEnvVars].
    - apply guarded_of_logs. logs_tac.
    - destruct (nth_error arr idx) as [[env|]|];
        try solve [apply guarded_of_logs; logs_tac].
      apply guarded_bind; [apply guarded_WRITE_STRING_OR_EXIT|].
      intros _. apply IH. }
  unfold session.
  apply guarded_bind; [|intros _; apply guarded_bind].
  - unfold handshake, sendArguments, sendEnvironment.
    apply guarded_bind;
      [apply guarded_of_logs; logs_tac; tauto|].
    intros r. destruct (negb (r =? 0)).
    + apply guarded_of_logs. unfold printSocketError. logs_tac. tauto.
    + apply guarded_bind; [|intros _; apply guarded_bind].
      * apply guarded_bind; [apply guarded_WRITE_STRING_OR_EXIT|].
        intros _. apply Hargs.
      * apply guarded_of_logs. logs_tac.
      * intros [arr envc].
        apply guarded_bind; [apply guarded_WRITE_STRING_OR_EXIT|].
        intros _. apply Henv.
  - unfold relayStdin. apply guarded_bind.
    + intros w r w' l pre e post E El He.
      apply relayStdinLoop_trace in E.
      exact (guarded_relay_trace _ _ _ _ E pre e post El He).
    + intros _. apply guarded_of_logs. logs_tac. tauto.
  - intros _. apply guarded_of_logs. apply relayOutput_no_failing_write.
Qed.

End Guarded.

(** X17.  In any run, a write that fails anywhere but at the terminator is
    the last thing done with the socket before it is closed: the client
    reports the failure and exits with code 1. *)
Lemma checked_write_failure_is_fatal
    (argv envp : list bytes) (w w' : world) (r : outcome Z)
    (log pre post : list event) (e : event) :
  main argv envp w = (r, w', log) ->
  log = pre ++ e :: post ->
  failing_write e ->
  r = Stop (Return 1)
  /\ exists msg socket,
       post = [EvSocketError msg; EvClose socket; EvTerminateNetwork].
Proof.
  intros Hmain Hlog He. rewrite main_eq in Hmain.
  assert (Hin : In e log) by (rewrite Hlog; apply in_elt).
  assert (Hshort : forall l, Forall (fun x => ~ failing_write x) l ->
                     In e l -> False).
  { intros l Hl Hi. rewrite Forall_forall in Hl. exact (Hl e Hi He). }
  destruct (negb (w_initializeNetwork w =? 0)).
  { injection Hmain as _ _ <-. exfalso.
    eapply Hshort; [|exact Hin]. repeat constructor; simpl; tauto. }
  destruct (getenv DESKTOP_PORT envp) as [portString|].
  2:{ injection Hmain as _ _ <-. exfalso.
      eapply Hshort; [|exact Hin]. repeat constructor; simpl; tauto. }
  destruct (w_openSocket w) as [|fd].
  { injection Hmain as _ _ <-. exfalso.
    eapply Hshort; [|exact Hin]. repeat constructor; simpl; tauto. }
  destruct (session (Handle fd) (to_ushort (atoi portString)) argv envp w)
    as [[rs w1] l] eqn:Es.
  assert (Hsplit : forall c,
             Forall (fun x => ~ failing_write x) c ->
             log = [EvInitializeNetwork (w_initializeNetwork w);
                    EvOpenSocket (Handle fd)] ++ l ++ c ->
             rs = Stop (Return 1)
             /\ exists msg, post = EvSocketError msg :: c).
  { intros c Hc Hl. rewrite Hlog in Hl. symmetry in Hl.
    apply app_split_mid in Hl.
    - destruct Hl as (pre' & post' & El & _ & ->).
      destruct (guarded_session _ _ _ _ w rs w1 l pre' e post' Es El He)
        as (-> & msg & ->).
      split; [reflexivity | now exists msg].
    - intros Hi. eapply Hshort; [|exact Hi].
      repeat constructor; simpl; tauto.
    - intros Hi. exact (Hshort c Hc Hi). }
  destruct rs as [code|[code| | |]]; injection Hmain as <- _ Hl;
    symmetry in Hl.
  1,2: destruct (Hsplit [EvClose (Handle fd); EvTerminateNetwork])
         as (Ers & msg & ->);
       [ constructor; [simpl; tauto | constructor; [simpl; tauto | constructor]]
       | exact Hl
       | first [ discriminate Ers
               | injection Ers as ->;
                 split; [reflexivity | now exists msg, (Handle fd)] ] ].
  all: destruct (Hsplit []) as (Ers & _);
       [constructor | now rewrite app_nil_r | discriminate Ers].
Qed.

Lemma checked_write_failure_is_fatal_witness :
  @Stop Z (Return 1) = Stop (Return 1)
  /\ exists msg socket,
       [EvSocketError (lit "ERROR: Couldn't send number of arguments");
        EvClose (Handle 3); EvTerminateNetwork]
       = [EvSocketError msg; EvClose socket; EvTerminateNetwork].
Proof.
  eapply (checked_write_failure_is_fatal
           [lit "git"] [lit "DESKTOP_PORT=1234"]
           (mkWorld 0 (Handle 3) 0 [-1] [] [])
           (mkWorld 0 (Handle 3) 0 [] [] [])
           (Stop (Return 1)) _
           [EvInitializeNetwork 0; EvOpenSocket (Handle 3);
            EvConnect (Handle 3) 1234 0]
           _
           (EvWrite (Handle 3) SiteArgc (string_bytes (decimal 0)) (-1))).
  - vm_compute. reflexivity.
  - reflexivity.
  - split; [discriminate | lia].
Defined.

(** ** The terminator *)

(** C5 at a concrete run.  Every write succeeds but the one of the
    terminator byte, which returns -1; the client goes on to read the two
    frames of the reply, prints them and exits with code 0. *)
Lemma terminator_failure_is_ignored :
  main [lit "git"; lit "status"] [lit "DESKTOP_PORT=1234"]
    (mkWorld 0 (Handle 3) 0 [0; 0; 0; -1] [RdErr]
       [RdData (frame (lit "ok") ++ frame [])])
  = (Stop (Return 0), mkWorld 0 (Handle 3) 0 [] [] [],
     [EvInitializeNetwork 0; EvOpenSocket (Handle 3);
      EvConnect (Handle 3) 1234 0;
      EvWrite (Handle 3) SiteArgc ["1"%char; NUL] 0;
      EvWrite (Handle 3) SiteArg (lit "status" ++ [NUL]) 0;
      EvWrite (Handle 3) SiteEnvc ["0"%char; NUL] 0;
      EvReadStdin BUFFER_LENGTH None;
      EvWrite (Handle 3) SiteTerminator [NUL] (-1);
      EvRecv (Handle 3) 2 (Some ["002"%char; NUL]);
      EvRecv (Handle 3) 2 (Some ["o"%char; "k"%char]);
      EvRecv (Handle 3) 0 (Some []);
      EvStdout ["o"%char; "k"%char];
      EvRecv (Handle 3) 2 (Some [NUL; NUL]);
      EvRecv (Handle 3) 0 (Some []);
      EvStderr [];
      EvClose (Handle 3); EvTerminateNetwork]).
Proof. vm_compute. reflexivity. Qed.

(** C1 at a concrete run.  The steps come in the order of the protocol:
    count of arguments, arguments, count of filtered entries, filtered
    entries in the order of the environment, standard input, terminator,
    first frame, second frame.  But the write of the terminator fails here
    (result -1), and the steps after it are carried out all the same. *)
Lemma steps_after_failed_terminator :
  main [lit "git"; lit "status"; lit "--porcelain"]
    [lit "HOME=/home/alice"; lit "DESKTOP_USERNAME=alice";
     lit "DESKTOP_PORT=1234"; lit "DESKTOP_ENDPOINT=https://api.github.com"]
    (mkWorld 0 (Handle 3) 0 [0; 0; 0; 0; 0; 0; 0; 0; -1]
       [RdData (lit "y"); RdData []]
       [RdData (frame (lit "clean")); RdData (frame [])])
  = (Stop (Return 0), mkWorld 0 (Handle 3) 0 [] [] [],
     [EvInitializeNetwork 0; EvOpenSocket (Handle 3);
      EvConnect (Handle 3) 1234 0;
      EvWrite (Handle 3) SiteArgc ["2"%char; NUL] 0;
      EvWrite (Handle 3) SiteArg (lit "status" ++ [NUL]) 0;
      EvWrite (Handle 3) SiteArg (lit "--porcelain" ++ [NUL]) 0;
      EvWrite (Handle 3) SiteEnvc ["2"%char; NUL] 0;
      EvWrite (Handle 3) SiteEnv (lit "DESKTOP_USERNAME=alice" ++ [NUL]) 0;
      EvWrite (Handle 3) SiteEnv
        (lit "DESKTOP_ENDPOINT=https://api.github.com" ++ [NUL]) 0;
      EvReadStdin BUFFER_LENGTH (Some (lit "y"));
      EvWrite (Handle 3) SiteStdin (lit "y") 0;
      EvReadStdin BUFFER_LENGTH (Some []);
      EvWrite (Handle 3) SiteStdin [] 0;
      EvWrite (Handle 3) SiteTerminator [NUL] (-1);
      EvRecv (Handle 3) 2 (Some ["005"%char; NUL]);
      EvRecv (Handle 3) 5 (Some (lit "clean"));
      EvRecv (Handle 3) 0 (Some []);
      EvStdout (lit "clean");
      EvRecv (Handle 3) 2 (Some [NUL; NUL]);
      EvRecv (Handle 3) 0 (Some []);
      EvStderr [];
      EvClose (Handle 3); EvTerminateNetwork]).
Proof. vm_compute. reflexivity. Qed.

(** ** The order of the steps *)

Section StepOrder.

Lemma steps_app (a b : list event) : steps (a ++ b) = steps a ++ steps b.
Proof. apply flat_map_app. Qed.

Lemma ordered_log_nil lo hi : ordered_log lo hi [].
Proof. split; constructor. Qed.

Lemma ordered_log_one lo hi e :
  (forall k, step_of e = Some k -> lo <= k <= hi)%nat ->
  ordered_log lo hi [e].
Proof.
  intros H. unfold ordered_log, steps. cbn [flat_map].
  destruct (step_of e) as [k|]; cbn [app].
  - split; repeat constructor; apply (H k eq_refl).
  - split; constructor.
Qed.

Lemma ordered_log_app lo mid hi a b :
  (lo <= mid <= hi)%nat ->
  ordered_log lo mid a -> ordered_log mid hi b ->
  ordered_log lo hi (a ++ b).
Proof.
  intros Hm [Sa Fa] [Sb Fb]. unfold ordered_log. rewrite steps_app.
  rewrite Forall_forall in Fa, Fb. split.
  - induction (steps a) as [|x xs IH]; cbn [app]; [exact Sb|].
    inversion Sa as [|? ? Sxs Hx]; subst.
    constructor.
    + apply IH; [exact Sxs|]. intros k Hk. apply Fa. now right.
    + apply Forall_app. split; [exact Hx|].
      apply Forall_forall. intros y Hy.
      pose proof (Fa x (or_introl eq_refl)). pose proof (Fb y Hy). lia.
  - apply Forall_app. split; apply Forall_forall; intros k Hk;
      [pose proof (Fa k Hk) | pose proof (Fb k Hk)]; lia.
Qed.

Lemma ordered_log_weaken lo hi lo' hi' l :
  (lo' <= lo)%nat -> (hi <= hi')%nat ->
  ordered_log lo hi l -> ordered_log lo' hi' l.
Proof.
  intros H1 H2 [S F]. split; [exact S|].
  eapply Forall_impl; [|exact F]. cbn beta. intros k Hk. lia.
Qed.

Lemma ordered_ret {A} lo hi (a : A) : ordered lo hi (ret a).
Proof. intros w. apply ordered_log_nil. Qed.

Lemma ordered_halt {A} lo hi (s : stop) : ordered lo hi (@halt A s).
Proof. intros w. apply ordered_log_nil. Qed.

Lemma ordered_lift {A} lo hi (o : outcome A) : ordered lo hi (lift o).
Proof. intros w. apply ordered_log_nil. Qed.

Lemma ordered_bind {A B} lo mid hi (m : M A) (f : A -> M B) :
  (lo <= mid <= hi)%nat ->
  ordered lo mid m -> (forall a, ordered mid hi (f a)) ->
  ordered lo hi (bind m f).
Proof.
  intros Hmid Hm Hf w. unfold bind. specialize (Hm w).
  destruct (m w) as [[[a|s] w1] l1]; cbn [snd] in *.
  - specialize (Hf a w1). destruct (f a w1) as [[r w2] l2]. cbn [snd] in *.
    exact (ordered_log_app lo mid hi l1 l2 Hmid Hm Hf).
  - apply (ordered_log_weaken lo mid); [lia | lia | exact Hm].
Qed.

Lemma ordered_weaken {A} lo hi lo' hi' (m : M A) :
  (lo' <= lo)%nat -> (hi <= hi')%nat -> ordered lo hi m -> ordered lo' hi' m.
Proof. intros H1 H2 H w. exact (ordered_log_weaken _ _ _ _ _ H1 H2 (H w)). Qed.

Lemma ordered_output {A} lo hi (m : M A) :
  logs (fun e => step_of e = None) m -> ordered lo hi m.
Proof.
  intros H w. specialize (H w).
  assert (E : steps (snd (m w)) = []).
  { induction H as [|e l He _ IH]; [reflexivity|].
    unfold steps in *. cbn [flat_map]. now rewrite He, IH. }
  unfold ordered_log. rewrite E. split; constructor.
Qed.

Lemma ordered_step {A} k (m : M A) :
  logs (fun e => step_of e = Some k \/ step_of e = None) m -> ordered k k m.
Proof.
  intros H w. specialize (H w).
  induction H as [|e l He _ IH]; [apply ordered_log_nil|].
  change (e :: l) with ([e] ++ l).
  apply (ordered_log_app k k k); [lia | | exact IH].
  apply ordered_log_one. intros j Hj.
  destruct He as [He|He]; rewrite He in Hj; [injection Hj as <-; lia|].
  discriminate Hj.
Qed.

Lemma ordered_WRITE_STRING_OR_EXIT socket at_ name str k :
  (forall data r, step_of (EvWrite socket at_ data r) = Some k) ->
  ordered k k (WRITE_STRING_OR_EXIT socket at_ name str).
Proof.
  intros H. apply ordered_step. apply logs_WRITE_STRING_OR_EXIT.
  - intros data r. left. apply H.
  - intros msg. now right.
Qed.

Lemma ordered_handshake socket port argv envp :
  ordered 2 6 (handshake socket port argv envp).
Proof.
  assert (Hargs : forall args, ordered 4 4 (sendArgumentList socket args)).
  { induction args as [|a args IH]; cbn [sendArgumentList];
      [apply ordered_ret|].
    apply (ordered_bind 4 4 4); [lia | | intros _; exact IH].
    now apply ordered_WRITE_STRING_OR_EXIT. }
  assert (Henv : forall arr count idx,
             ordered 6 6 (sendEnvVars socket arr idx count)).
  { induction count as [|count IH]; intros idx; cbn [sendEnvVars];
      [apply ordered_ret|].
    destruct (nth_error arr idx) as [[env|]|]; try apply ordered_halt.
    apply (ordered_bind 6 6 6); [lia | | intros _; apply IH].
    now apply ordered_WRITE_STRING_OR_EXIT. }
  unfold handshake, sendArguments, sendEnvironment.
  apply (ordered_bind 2 2 6); [lia | |].
  { apply ordered_step. apply logs_connectSocket. intros r. now left. }
  intros r. destruct (negb (r =? 0)).
  { apply ordered_output. unfold printSocketError. logs_tac. }
  apply (ordered_bind 2 4 6); [lia | |].
  - apply (ordered_bind 2 3 4); [lia | | intros _; apply (ordered_weaken 4 4); [lia | lia | apply Hargs]].
    apply (ordered_weaken 3 3); [lia | lia |].
    now apply ordered_WRITE_STRING_OR_EXIT.
  - intros _. apply (ordered_bind 4 4 6); [lia | apply ordered_lift |].
    intros [arr envc].
    apply (ordered_bind 4 5 6); [lia | |].
    + apply (ordered_weaken 5 5); [lia | lia |].
      now apply ordered_WRITE_STRING_OR_EXIT.
    + intros _. apply (ordered_weaken 6 6); [lia | lia | apply Henv].
Qed.

Lemma ordered_session socket port argv envp :
  ordered 2 9 (session socket port argv envp).
Proof.
  unfold session.
  apply (ordered_bind 2 6 9); [lia | apply ordered_handshake |].
  intros _. apply (ordered_bind 6 8 9); [lia | |].
  - unfold relayStdin.
    apply (ordered_bind 6 7 8); [lia | |].
    + apply (ordered_weaken 7 7); [lia | lia |].
      apply ordered_step. intros w.
      destruct (relayStdinLoop _ _ _ w) as [[r w'] l] eqn:E. cbn [snd].
      apply relayStdinLoop_trace in E.
      induction E;
        repeat (apply Forall_cons; [first [now left | now right]|]);
        first [apply Forall_nil | assumption].
    + intros _. apply (ordered_weaken 8 8); [lia | lia |].
      apply ordered_step. logs_tac. now left.
  - intros _. apply (ordered_weaken 9 9); [lia | lia |].
    apply ordered_step. apply relayOutput_logs; intros; auto.
Qed.

End StepOrder.

(** X15.  In every run of [main], whether it succeeds or fails and wherever
    it fails, the steps follow one another in the order of the protocol:
    initialisation, opening, connection, count of arguments, arguments,
    count of filtered entries, filtered entries, relay of standard input,
    terminator, reads of the reply, closing, termination.  None comes
    before an earlier one. *)
Lemma steps_in_order (argv envp : list bytes) (w : world) :
  StronglySorted le (steps (snd (main argv envp w))).
Proof.
  rewrite main_eq.
  destruct (negb (w_initializeNetwork w =? 0));
    [repeat constructor|].
  destruct (getenv DESKTOP_PORT envp) as [portString|];
    [|repeat constructor].
  destruct (w_openSocket w) as [|fd]; [repeat constructor|].
  pose proof (ordered_session (Handle fd) (to_ushort (atoi portString))
                argv envp w) as Hs.
  destruct (session _ _ _ _ w) as [[rs w1] l]. cbn [snd] in Hs.
  assert (Hall : ordered_log 0 11
            ([EvInitializeNetwork (w_initializeNetwork w);
              EvOpenSocket (Handle fd)]
             ++ l ++ [EvClose (Handle fd); EvTerminateNetwork])).
  { apply (ordered_log_app 0 1 11); [lia | |].
    - change [EvInitializeNetwork (w_initializeNetwork w);
              EvOpenSocket (Handle fd)]
        with ([EvInitializeNetwork (w_initializeNetwork w)]
              ++ [EvOpenSocket (Handle fd)]).
      apply (ordered_log_app 0 0 1); [lia | |]; apply ordered_log_one;
        intros k [= <-]; lia.
    - apply (ordered_log_app 1 9 11); [lia | |].
      + apply (ordered_log_weaken 2 9); [lia | lia | exact Hs].
      + change [EvClose (Handle fd); EvTerminateNetwork]
          with ([EvClose (Handle fd)] ++ [EvTerminateNetwork]).
        apply (ordered_log_app 9 10 11); [lia | |]; apply ordered_log_one;
          intros k [= <-]; lia. }
  assert (Hcut : ordered_log 0 11
            ([EvInitializeNetwork (w_initializeNetwork w);
              EvOpenSocket (Handle fd)] ++ l)).
  { destruct Hall as [S F]. rewrite app_assoc, steps_app in S, F.
    split.
    - clear F. induction (steps (_ ++ l)) as [|x xs IH]; [constructor|].
      cbn [app] in S. inversion S as [|? ? Sxs Hx]; subst.
      constructor; [now apply IH|]. apply Forall_app in Hx. tauto.
    - apply Forall_app in F. tauto. }
  destruct rs as [code|[code| | |]]; cbn [snd];
    first [exact (proj1 Hall) | exact (proj1 Hcut)].
Qed.

(** * Further properties of the code *)

(** ** The filter on arbitrary strings *)

(** X1.  [isValidEnvVar] accepts exactly the strings that begin with one of
    the four names followed at once by an equals sign, whatever comes after
    (more equals signs included); it returns 0 for every other string, in
    particular for one without an equals sign, such as a bare name, and
    never anything but 0 or 1. *)
Theorem isValidEnvVar_accepts_exactly (env : bytes) :
  (isValidEnvVar env = 1
   <-> exists candidate rest,
         In candidate sValidEnvVars /\ env = candidate ++ "="%char :: rest)
  /\ (isValidEnvVar env = 0 \/ isValidEnvVar env = 1)
  /\ (~ In "="%char env -> isValidEnvVar env = 0).
Proof.
  destruct (isValidEnvVar_loop_spec sValidEnvVars env) as [Hone Hrange].
  fold (isValidEnvVar env) in Hone, Hrange.
  assert (Hiff : isValidEnvVar env = 1
                 <-> exists candidate rest,
                       In candidate sValidEnvVars
                       /\ env = candidate ++ "="%char :: rest).
  { rewrite Hone. split.
    - intros (c & Hin & Hm).
      apply matchesCandidate_spec in Hm; [|apply sValidEnvVars_plain, Hin].
      destruct Hm as [rest ->]. now exists c, rest.
    - intros (c & rest & Hin & ->). exists c. split; [exact Hin|].
      apply matchesCandidate_spec; [apply sValidEnvVars_plain, Hin|].
      now exists rest. }
  split; [exact Hiff|]. split; [exact Hrange|].
  intros Hno. destruct Hrange as [E|E]; [exact E|].
  apply Hiff in E. destruct E as (c & rest & _ & ->).
  exfalso. apply Hno. apply in_elt.
Qed.

(** ** The filtered entries in the array *)

Section StoredEntries.

Lemma array_store_next {A} (pre : list A) (free : list A) (old v : A) :
  array_store (pre ++ old :: free) (length pre) v = Some (pre ++ v :: free).
Proof.
  unfold array_store. rewrite length_app. cbn [length].
  destruct (Nat.ltb_spec (length pre) (length pre + S (length free)));
    [|lia].
  rewrite firstn_app, Nat.sub_diag, firstn_all. cbn [firstn].
  rewrite app_nil_r.
  replace (S (length pre)) with (length pre + 1)%nat by lia.
  rewrite skipn_app, skipn_all2 by lia.
  replace (length pre + 1 - length pre)%nat with 1%nat by lia.
  reflexivity.
Qed.

Lemma collectEnv_content (envp : list bytes) :
  forall (pre : list bytes) (free : nat),
    (length (valid_entries envp) <= free)%nat ->
    collectEnv envp (map Some pre ++ repeat None free) (length pre)
    = Val (map Some (pre ++ valid_entries envp)
             ++ repeat None (free - length (valid_entries envp)),
           (length pre + length (valid_entries envp))%nat).
Proof.
  induction envp as [|env rest IH]; intros pre free Hfit;
    cbn [valid_entries filter collectEnv] in *.
  - cbn [length]. now rewrite app_nil_r, Nat.sub_0_r, Nat.add_0_r.
  - fold (valid_entries rest) in *.
    destruct (negb (isValidEnvVar env =? 0)).
    + cbn [length] in Hfit. destruct free as [|free]; [lia|].
      cbn [repeat].
      rewrite <- (length_map Some pre) at 1.
      rewrite array_store_next.
      specialize (IH (pre ++ [env]) free ltac:(lia)).
      rewrite map_app, <- app_assoc, length_app in IH. cbn [map app length] in IH.
      replace (S (length pre)) with (length pre + 1)%nat by lia.
      rewrite IH. cbn [length]. rewrite <- app_assoc. cbn [app].
      f_equal. f_equal. lia.
    + exact (IH pre free Hfit).
Qed.

Lemma env_name_of_entry (name rest : bytes) :
  ~ In "="%char name -> env_name (name ++ "="%char :: rest) = name.
Proof.
  induction name as [|c name IH]; intros H; cbn [app env_name].
  - reflexivity.
  - destruct (Ascii.eqb_spec c "="%char) as [->|_].
    + exfalso. apply H. now left.
    + f_equal. apply IH. intros Hin. apply H. now right.
Qed.

Lemma valid_entry_shape (env : bytes) :
  negb (isValidEnvVar env =? 0) = true ->
  exists candidate rest,
    In candidate sValidEnvVars /\ env = candidate ++ "="%char :: rest.
Proof.
  intros Hvalid.
  destruct (isValidEnvVar_loop_spec sValidEnvVars env) as [Hone Hrange].
  fold (isValidEnvVar env) in Hone, Hrange.
  destruct Hrange as [E|E]; [rewrite E in Hvalid; discriminate Hvalid|].
  apply Hone in E. destruct E as (c & Hin & Hm).
  apply matchesCandidate_spec in Hm; [|apply sValidEnvVars_plain, Hin].
  destruct Hm as [rest ->]. now exists c, rest.
Qed.

Lemma valid_entries_distinct_names (envp : list bytes) :
  NoDup (map env_name envp) -> NoDup (map env_name (valid_entries envp)).
Proof.
  unfold valid_entries.
  induction envp as [|env rest IH]; cbn [map filter]; intros Hnames;
    [constructor|].
  apply NoDup_cons_iff in Hnames. destruct Hnames as [Hfresh Hrest].
  destruct (negb (isValidEnvVar env =? 0)); [|exact (IH Hrest)].
  cbn [map]. apply NoDup_cons_iff. split; [|exact (IH Hrest)].
  intros Hin. apply Hfresh. apply in_map_iff in Hin.
  destruct Hin as (other & Eother & Hother). apply filter_In in Hother.
  apply in_map_iff. exists other. tauto.
Qed.

End StoredEntries.

(** X2.  When the environment has at most four entries the filter lets
    through, the loop of lines 123-128 leaves them in [validEnvVars] at the
    indices 0, 1, ... in the order of the environment, duplicates kept and
    nothing else touched: the elements behind them are still unset, and
    [envc] is their number. *)
Theorem collectEnv_stores_in_order (envp : list bytes) :
  (length (valid_entries envp) <= NUMBER_OF_VALID_ENV_VARS)%nat ->
  collectEnv envp (repeat None NUMBER_OF_VALID_ENV_VARS) 0
  = Val (map Some (valid_entries envp)
           ++ repeat None
                (NUMBER_OF_VALID_ENV_VARS - length (valid_entries envp)),
         length (valid_entries envp)).
Proof.
  intros Hfit.
  exact (collectEnv_content envp [] NUMBER_OF_VALID_ENV_VARS Hfit).
Qed.

Lemma collectEnv_stores_in_order_witness :
  collectEnv
    [lit "HOME=/home/alice"; lit "DESKTOP_USERNAME=alice";
     lit "DESKTOP_TRAMPOLINE_TOKEN=t"; lit "DESKTOP_USERNAME=bob"]
    (repeat None NUMBER_OF_VALID_ENV_VARS) 0
  = Val ([Some (lit "DESKTOP_USERNAME=alice");
          Some (lit "DESKTOP_TRAMPOLINE_TOKEN=t");
          Some (lit "DESKTOP_USERNAME=bob"); None], 3%nat).
Proof.
  apply (collectEnv_stores_in_order
           [lit "HOME=/home/alice"; lit "DESKTOP_USERNAME=alice";
            lit "DESKTOP_TRAMPOLINE_TOKEN=t"; lit "DESKTOP_USERNAME=bob"]).
  vm_compute. lia.
Defined.

(** X3.  An environment in which no two entries have the same name never
    overflows [validEnvVars]: at most four of its entries pass the filter,
    so the loop that fills the array completes. *)
Theorem distinct_names_fit (envp : list bytes) :
  NoDup (map env_name envp) ->
  (length (valid_entries envp) <= NUMBER_OF_VALID_ENV_VARS)%nat
  /\ exists stored,
       collectEnv envp (repeat None NUMBER_OF_VALID_ENV_VARS) 0
       = Val (stored, length (valid_entries envp)).
Proof.
  intros Hnd.
  assert (Hle : (length (valid_entries envp) <= NUMBER_OF_VALID_ENV_VARS)%nat).
  { rewrite <- (length_map env_name (valid_entries envp)).
    change NUMBER_OF_VALID_ENV_VARS with (length sValidEnvVars).
    apply NoDup_incl_length.
    - now apply valid_entries_distinct_names.
    - intros name Hin. apply in_map_iff in Hin.
      destruct Hin as (env & <- & Henv).
      unfold valid_entries in Henv. apply filter_In in Henv.
      destruct Henv as [_ Hvalid].
      destruct (valid_entry_shape env Hvalid) as (c & rest & Hc & ->).
      rewrite env_name_of_entry; [exact Hc | apply sValidEnvVars_plain, Hc]. }
  split; [exact Hle|].
  eexists. exact (collectEnv_content envp [] NUMBER_OF_VALID_ENV_VARS Hle).
Qed.

Lemma distinct_names_fit_witness :
  (length (valid_entries
             [lit "DESKTOP_USERNAME=alice"; lit "HOME=/home/alice";
              lit "DESKTOP_ENDPOINT=https://api.github.com"])
   <= NUMBER_OF_VALID_ENV_VARS)%nat
  /\ exists stored,
       collectEnv
         [lit "DESKTOP_USERNAME=alice"; lit "HOME=/home/alice";
          lit "DESKTOP_ENDPOINT=https://api.github.com"]
         (repeat None NUMBER_OF_VALID_ENV_VARS) 0
       = Val (stored,
              length (valid_entries
                        [lit "DESKTOP_USERNAME=alice"; lit "HOME=/home/alice";
                         lit "DESKTOP_ENDPOINT=https://api.github.com"])).
Proof.
  apply (distinct_names_fit
           [lit "DESKTOP_USERNAME=alice"; lit "HOME=/home/alice";
            lit "DESKTOP_ENDPOINT=https://api.github.com"]).
  vm_compute. repeat constructor; simpl; intuition discriminate.
Defined.

(** ** The decoder at its edges *)

(** X4.  When the read of the length prefix fails or delivers fewer than
    two bytes (one byte is not waited for), [readDelimitedString] reports a
    socket error and returns -1 without reading again. *)
Theorem readDelimitedString_short_header
    (socket : SOCKET) (bufferSize : nat) (w : world)
    (header : option bytes) (rest : list segment) :
  take (w_socket w) 2 = (header, rest) ->
  (forall bs, header = Some bs -> (length bs < 2)%nat) ->
  readDelimitedString socket bufferSize w
  = (Val (-1, []), set_socket w rest,
     [EvRecv socket 2 header;
      EvSocketError (lit "ERROR: Error reading from socket")]).
Proof.
  intros Htake Hshort. unfold readDelimitedString, bind, readSocket.
  rewrite Htake. fold (set_socket w rest).
  destruct header as [[|b0 [|b1 [|b2 bs]]]|]; try reflexivity.
  specialize (Hshort _ eq_refl). cbn [length] in Hshort. lia.
Qed.

Lemma readDelimitedString_short_header_witness :
  readDelimitedString (Handle 3) BUFFER_LENGTH
    (mkWorld 0 (Handle 3) 0 [] [] [RdData ["005"%char]; RdData [NUL]])
  = (Val (-1, []),
     set_socket
       (mkWorld 0 (Handle 3) 0 [] [] [RdData ["005"%char]; RdData [NUL]])
       [RdData [NUL]],
     [EvRecv (Handle 3) 2 (Some ["005"%char]);
      EvSocketError (lit "ERROR: Error reading from socket")]).
Proof.
  apply (readDelimitedString_short_header (Handle 3) BUFFER_LENGTH
           (mkWorld 0 (Handle 3) 0 [] [] [RdData ["005"%char]; RdData [NUL]])
           (Some ["005"%char]) [RdData [NUL]]).
  - reflexivity.
  - intros bs [= <-]. simpl. lia.
Defined.

Section DecoderBounds.

Lemma readPayload_bounds socket outputLength :
  forall fuel acc w k buffer w' l,
    readPayload fuel socket outputLength acc w = (Val (k, buffer), w', l) ->
    (length acc <= outputLength)%nat ->
    (k = -1 /\ (length buffer <= outputLength)%nat)
    \/ (exists payload,
          buffer = payload ++ [NUL]
          /\ k = Z.of_nat (length payload)
          /\ (length payload <= outputLength)%nat).
Proof.
  induction fuel as [|fuel IH]; intros acc w k buffer w' l E Hacc;
    cbn [readPayload] in E; [discriminate E|].
  unfold bind at 1 in E. unfold readSocket at 1 in E.
  destruct (take (w_socket w) (outputLength - length acc))
    as [[bs|] rest] eqn:Et.
  - apply take_length in Et. cbn beta iota zeta in E.
    assert (Hnew : (length (acc ++ bs) <= outputLength)%nat)
      by (rewrite length_app; lia).
    destruct (0 <? length bs)%nat.
    + match type of E with
      | context [readPayload fuel socket outputLength ?a ?w1] =>
          destruct (readPayload fuel socket outputLength a w1)
            as [[r2 w2] l2] eqn:E2
      end.
      injection E as -> _ _. exact (IH _ _ _ _ _ _ E2 Hnew).
    + cbn in E. injection E as <- <- _ _. right.
      exists (acc ++ bs). auto.
  - cbn in E. injection E as <- <- _ _. left. auto.
Qed.

End DecoderBounds.

(** X5.  Whatever the peer sends, [readDelimitedString] stores at most
    [bufferSize] + 1 bytes in the buffer (the size the caller's array has):
    it returns either -1, or a length between 0 and [bufferSize] with that
    many bytes stored and a zero byte right behind them. *)
Theorem readDelimitedString_bounds
    (socket : SOCKET) (bufferSize : nat) (w w' : world)
    (k : Z) (buffer : bytes) (l : list event) :
  readDelimitedString socket bufferSize w = (Val (k, buffer), w', l) ->
  (length buffer <= bufferSize + 1)%nat
  /\ (k = -1
      \/ exists payload,
           buffer = payload ++ [NUL]
           /\ k = Z.of_nat (length payload)
           /\ (length payload <= bufferSize)%nat).
Proof.
  unfold readDelimitedString. intros E.
  unfold bind at 1 in E. unfold readSocket at 1 in E.
  destruct (take (w_socket w) 2) as [header rest].
  cbn beta iota zeta in E.
  destruct header as [[|b0 [|b1 [|b2 bs]]]|];
    try (cbn in E; injection E as <- <- _ _; cbn [length]; split;
         [lia | now left]).
  destruct (Nat.ltb_spec bufferSize (u16 b0 b1)) as [|Hfit].
  - cbn in E. injection E as <- <- _ _. cbn [length]. split; [lia | now left].
  - match type of E with
    | context [readPayload ?f socket ?n [] ?w1] =>
        destruct (readPayload f socket n [] w1) as [[r2 w2] l2] eqn:E2
    end.
    injection E as -> _ _.
    apply readPayload_bounds in E2; [|cbn [length]; lia].
    destruct E2 as [[-> Hlen]|(payload & -> & -> & Hlen)].
    + split; [lia | now left].
    + split; [rewrite length_app; cbn [length]; lia|].
      right. exists payload. repeat split. lia.
Qed.

Lemma readDelimitedString_bounds_witness :
  (length ["o"%char; "k"%char; NUL] <= BUFFER_LENGTH + 1)%nat
  /\ (2 = -1
      \/ exists payload,
           ["o"%char; "k"%char; NUL] = payload ++ [NUL]
           /\ 2 = Z.of_nat (length payload)
           /\ (length payload <= BUFFER_LENGTH)%nat).
Proof.
  apply (readDelimitedString_bounds (Handle 3) BUFFER_LENGTH
           (mkWorld 0 (Handle 3) 0 [] []
              [RdData ["002"%char; NUL; "o"%char; "k"%char]])
           (mkWorld 0 (Handle 3) 0 [] [] [])
           2 ["o"%char; "k"%char; NUL]
           [EvRecv (Handle 3) 2 (Some ["002"%char; NUL]);
            EvRecv (Handle 3) 2 (Some ["o"%char; "k"%char]);
            EvRecv (Handle 3) 0 (Some [])]).
  vm_compute. reflexivity.
Defined.

Section DecoderStream.

(** One call on a segment that holds a whole frame and possibly more. *)
Lemma readDelimitedString_segment socket bufferSize w payload more rest :
  (length payload <= bufferSize)%nat ->
  (length payload < 256 * 256)%nat ->
  w_socket w = RdData (frame payload ++ more) :: rest ->
  (more = [] -> no_error_next rest) ->
  exists l,
    readDelimitedString socket bufferSize w
    = (Val (Z.of_nat (length payload), payload ++ [NUL]),
       set_socket w (match more with
                     | [] => snd (take rest 0)
                     | _ => RdData more :: rest
                     end),
       l)
    /\ Forall (fun e => exists len bs, e = EvRecv socket len (Some bs)) l.
Proof.
  intros Hfit Hrange Hsock Hmore.
  pose proof (u16_of_u16_bytes _ Hrange) as Hlen.
  unfold frame, u16_bytes in Hsock.
  remember (ascii_of_nat (length payload mod 256)) as c0 eqn:Ec0.
  remember (ascii_of_nat (length payload / 256)) as c1 eqn:Ec1.
  clear Ec0 Ec1. cbn [app] in Hsock.
  unfold readDelimitedString. unfold bind at 1. unfold readSocket at 1.
  rewrite Hsock. clear Hsock. cbn [take].
  assert (Hzero : forall src,
             (src = RdData more :: rest /\ more <> [])
             \/ (src = rest /\ more = []) ->
             take src 0
             = (Some [], match more with
                         | [] => snd (take rest 0)
                         | _ => RdData more :: rest
                         end)).
  { intros src [[-> Hne]|[-> ->]].
    - destruct more as [|m more]; [congruence | reflexivity].
    - destruct (take_nothing rest (Hmore eq_refl)) as (rest' & E).
      rewrite E. reflexivity. }
  destruct payload as [|p0 payload].
  - cbn [length app] in *.
    destruct more as [|m more];
      cbn [length Nat.leb firstn skipn]; cbn beta iota zeta; rewrite Hlen;
      (destruct (Nat.ltb_spec bufferSize 0); [lia|]);
      cbn [readPayload]; unfold bind at 1; unfold readSocket at 1;
      cbn [w_socket length Nat.sub].
    + (* nothing behind the prefix *)
      rewrite (Hzero rest) by (right; auto).
      cbn. unfold set_socket. eexists. split; [reflexivity|].
      repeat constructor; eauto.
    + (* an empty payload, the next bytes left in place *)
      rewrite (Hzero (RdData (m :: more) :: rest))
        by (left; split; [reflexivity | discriminate]).
      cbn. unfold set_socket. eexists. split; [reflexivity|].
      repeat constructor; eauto.
  - remember (p0 :: payload) as p eqn:Ep.
    assert (Hp : (0 < length p)%nat) by (subst p; cbn [length]; lia).
    clear p0 payload Ep.
    replace (length (c0 :: c1 :: p ++ more) <=? 2)%nat with false
      by (symmetry; apply Nat.leb_gt; cbn [length]; rewrite length_app; lia).
    cbn [firstn skipn]. cbn beta iota zeta. rewrite Hlen.
    destruct (Nat.ltb_spec bufferSize (length p)); [lia|].
    assert (Et : take (RdData (p ++ more) :: rest) (length p)
                 = (Some p, match more with
                            | [] => rest
                            | _ => RdData more :: rest
                            end)).
    { cbn [take]. rewrite length_app.
      destruct more as [|m more].
      - rewrite app_nil_r. cbn [length]. rewrite Nat.add_0_r.
        now rewrite Nat.leb_refl.
      - destruct (Nat.leb_spec (length p + length (m :: more)) (length p))
          as [Hle|_]; [cbn [length] in Hle; lia|].
        rewrite firstn_app, Nat.sub_diag, firstn_all. cbn [firstn].
        rewrite app_nil_r.
        rewrite skipn_app, Nat.sub_diag, skipn_all. reflexivity. }
    destruct (length p) as [|n] eqn:En; [lia|].
    cbn [readPayload]. unfold bind at 1. unfold readSocket at 1.
    cbn [w_socket length Nat.sub].
    rewrite Et. cbn beta iota zeta. cbn [app].
    rewrite En. cbn [Nat.ltb Nat.leb]. cbn beta iota.
    unfold bind at 1. unfold readSocket at 1.
    cbn [w_socket]. rewrite Nat.sub_diag.
    rewrite Hzero.
    2:{ destruct more as [|m more]; [right; auto|].
        left. split; [reflexivity | discriminate]. }
    cbn beta iota zeta. cbn [length Nat.ltb Nat.leb].
    rewrite app_nil_r, En.
    unfold ret, set_socket. cbn [w_initializeNetwork w_openSocket
      w_connectSocket w_writeSocket w_stdin app].
    eexists. split; [reflexivity|].
    repeat constructor; eauto.
Qed.

End DecoderStream.



Lemma relayOutput_two_frames
    (socket : SOCKET) (w : world) (out err more : bytes)
    (rest : list segment) :
  (length out <= BUFFER_LENGTH)%nat ->
  (length err <= BUFFER_LENGTH)%nat ->
  w_socket w = RdData (frame out ++ frame err ++ more) :: rest ->
  (more = [] -> no_error_next rest) ->
  exists reads1 reads2,
    relayOutput socket w
    = (Stop (Return 0),
       set_socket w (match more with
                     | [] => snd (take rest 0)
                     | _ => RdData more :: rest
                     end),
       reads1 ++ EvStdout (cstr out) :: reads2 ++ [EvStderr (cstr err)])
    /\ Forall (fun e => exists len bs, e = EvRecv socket len (Some bs))
         (reads1 ++ reads2).
Proof.
  intros Hout Herr Hsock Hmore.
  assert (Hsmall : forall p : bytes,
             (length p <= BUFFER_LENGTH)%nat -> (length p < 256 * 256)%nat)
    by (intros p H; unfold BUFFER_LENGTH in H; lia).
  destruct (readDelimitedString_segment socket BUFFER_LENGTH w out
              (frame err ++ more) rest Hout (Hsmall _ Hout) Hsock)
    as (l1 & E1 & F1).
  { intros Habs. unfold frame, u16_bytes in Habs. discriminate Habs. }
  assert (Enext : match frame err ++ more with
                  | [] => snd (take rest 0)
                  | _ => RdData (frame err ++ more) :: rest
                  end = RdData (frame err ++ more) :: rest)
    by reflexivity.
  rewrite Enext in E1. clear Enext.
  set (w1 := set_socket w (RdData (frame err ++ more) :: rest)) in *.
  destruct (readDelimitedString_segment socket BUFFER_LENGTH w1 err
              more rest Herr (Hsmall _ Herr) eq_refl Hmore)
    as (l2 & E2 & F2).
  exists l1, l2. split; [|apply Forall_app; now split].
  unfold relayOutput. unfold bind at 1. rewrite E1. cbn [fst snd].
  destruct (Z.eqb_spec (Z.of_nat (length out)) (-1)) as [Habs|_]; [lia|].
  unfold bind at 1. unfold fprintf_stdout at 1. unfold emit at 1.
  unfold bind at 1. rewrite E2. cbn [fst snd].
  destruct (Z.eqb_spec (Z.of_nat (length err)) (-1)) as [Habs|_]; [lia|].
  unfold bind, fprintf_stderr, emit, halt.
  change (out ++ [NUL]) with (out ++ NUL :: []).
  change (err ++ [NUL]) with (err ++ NUL :: []).
  rewrite !cstr_terminated.
  unfold w1, set_socket.
  cbn [w_initializeNetwork w_openSocket w_connectSocket w_writeSocket
       w_stdin].
  repeat (rewrite <- app_assoc || rewrite <- app_comm_cons ||
          rewrite app_nil_r).
  reflexivity.
Qed.

(** X7.  Two frames that arrive back to back in one piece are decoded one
    after the other: [relayOutput] prints the first payload (up to its first
    zero byte) to standard output, the second to standard error, returns 0,
    and leaves in the socket exactly what follows the second frame. *)
Theorem relayOutput_prints_reply
    (socket : SOCKET) (w : world) (out err more : bytes)
    (rest : list segment) :
  (length out <= BUFFER_LENGTH)%nat ->
  (length err <= BUFFER_LENGTH)%nat ->
  w_socket w = RdData (frame out ++ frame err ++ more) :: rest ->
  (more = [] -> no_error_next rest) ->
  exists reads1 reads2,
    relayOutput socket w
    = (Stop (Return 0),
       set_socket w (match more with
                     | [] => snd (take rest 0)
                     | _ => RdData more :: rest
                     end),
       reads1 ++ EvStdout (cstr out) :: reads2 ++ [EvStderr (cstr err)])
    /\ Forall (fun e => exists len bs, e = EvRecv socket len (Some bs))
         (reads1 ++ reads2).
Proof. exact (relayOutput_two_frames socket w out err more rest). Qed.

Lemma relayOutput_prints_reply_witness :
  exists reads1 reads2,
    relayOutput (Handle 3)
      (mkWorld 0 (Handle 3) 0 [] []
         [RdData (frame (lit "clean") ++ frame (lit "warning") ++ [])])
    = (Stop (Return 0),
       set_socket
         (mkWorld 0 (Handle 3) 0 [] []
            [RdData (frame (lit "clean") ++ frame (lit "warning") ++ [])])
         (snd (take [] 0)),
       reads1 ++ EvStdout (cstr (lit "clean"))
       :: reads2 ++ [EvStderr (cstr (lit "warning"))])
    /\ Forall (fun e => exists len bs, e = EvRecv (Handle 3) len (Some bs))
         (reads1 ++ reads2).
Proof.
  apply (relayOutput_prints_reply (Handle 3)
           (mkWorld 0 (Handle 3) 0 [] []
              [RdData (frame (lit "clean") ++ frame (lit "warning") ++ [])])
           (lit "clean") (lit "warning") [] []).
  - vm_compute. lia.
  - vm_compute. lia.
  - reflexivity.
  - intros _. exact I.
Defined.

(** ** The parts of a log *)

Section LogParts.

Lemma handshake_logs socket port argv envp :
  logs handshake_event (handshake socket port argv envp).
Proof.
  assert (HW : forall at_ name str,
             at_ <> SiteStdin -> at_ <> SiteTerminator ->
             logs handshake_event (WRITE_STRING_OR_EXIT socket at_ name str)).
  { intros at_ name str H1 H2. apply logs_WRITE_STRING_OR_EXIT.
    - intros data r. destruct at_; simpl; tauto.
    - intros msg. exact I. }
  assert (Hargs : forall args,
             logs handshake_event (sendArgumentList socket args)).
  { induction args as [|a args IH]; cbn [sendArgumentList]; logs_tac.
    apply HW; discriminate. }
  assert (Henv : forall arr count idx,
             logs handshake_event (sendEnvVars socket arr idx count)).
  { induction count as [|count IH]; intros idx; cbn [sendEnvVars];
      logs_tac; try apply IH. apply HW; discriminate. }
  unfold handshake, sendArguments, sendEnvironment, printSocketError.
  logs_tac; try apply Hargs; try apply Henv; apply HW; discriminate.
Qed.

(** The log of a session: the events of the handshake, then those of the
    loop over standard input, then the terminator and the events of the
    reply; the later parts are missing when an earlier one has stopped the
    session. *)
Lemma session_log_parts socket port argv envp w rs w1 l :
  session socket port argv envp w = (rs, w1, l) ->
  exists l1 l2 l3,
    l = l1 ++ l2 ++ l3
    /\ Forall handshake_event l1
    /\ (l2 = [] \/ exists rl, relay_trace socket 0 l2 rl)
    /\ (l3 = []
        \/ exists res reply,
             l3 = EvWrite socket SiteTerminator [NUL] res :: reply
             /\ Forall reply_event reply).
Proof.
  intros Es. rewrite session_eq in Es.
  pose proof (handshake_logs socket port argv envp w) as Hh.
  destruct (handshake socket port argv envp w) as [[[[]|st] w2] l1].
  2:{ injection Es as _ _ <-. exists l1, [], []. cbn [snd] in Hh.
      rewrite !app_nil_r. auto. }
  cbn [snd] in Hh.
  destruct (relayStdinLoop _ socket 0 w2) as [[rl w3] l2] eqn:El.
  apply relayStdinLoop_trace in El.
  destruct rl as [[]|st].
  - pose proof (relayOutput_logs reply_event socket
                  ltac:(intros; exact I) ltac:(intros; exact I)
                  ltac:(intros; exact I) ltac:(intros; exact I)
                  (written w3)) as Ho.
    destruct (relayOutput socket (written w3)) as [[ro w4] l3].
    cbn [snd] in Ho. injection Es as _ _ <-.
    exists l1, l2, (EvWrite socket SiteTerminator [NUL]
                      (hd 0 (w_writeSocket w3)) :: l3).
    repeat split; eauto.
  - injection Es as _ _ <-. exists l1, l2, [].
    rewrite app_nil_r. repeat split; eauto.
Qed.

(** The log of a run of [main]: either the run has ended before it had a
    socket, or its log is that of a session between the opening of the
    socket and, when [main] returns, its closing. *)
Lemma main_log_parts argv envp w :
  Forall startup_event (snd (main argv envp w))
  \/ exists fd port rs w1 l closing,
       w_openSocket w = Handle fd
       /\ session (Handle fd) port argv envp w = (rs, w1, l)
       /\ snd (main argv envp w)
          = [EvInitializeNetwork 0; EvOpenSocket (Handle fd)] ++ l ++ closing
       /\ ((closing = [EvClose (Handle fd); EvTerminateNetwork]
            /\ exit_code (fst (fst (main argv envp w))) = exit_code rs
            /\ exit_code rs <> None)
           \/ (closing = []
               /\ exit_code (fst (fst (main argv envp w))) = None)).
Proof.
  rewrite main_eq.
  destruct (Z.eqb_spec (w_initializeNetwork w) 0) as [E0|_]; cbn [negb].
  2:{ left. repeat constructor. }
  destruct (getenv DESKTOP_PORT envp) as [portString|].
  2:{ left. repeat constructor. }
  destruct (w_openSocket w) as [|fd] eqn:Eo.
  { left. repeat constructor. }
  right. rewrite E0.
  destruct (session (Handle fd) (to_ushort (atoi portString)) argv envp w)
    as [[rs w1] l] eqn:Es.
  exists fd, (to_ushort (atoi portString)), rs, w1, l.
  destruct rs as [code|[code| | |]]; cbn [fst snd].
  1,2: exists [EvClose (Handle fd); EvTerminateNetwork];
       (split; [reflexivity|]); (split; [exact Es|]);
       (split; [reflexivity|]); left;
       (split; [reflexivity|]); split; [reflexivity | discriminate].
  all: exists []; rewrite app_nil_r;
       (split; [reflexivity|]); (split; [exact Es|]);
       (split; [reflexivity|]); right; split; reflexivity.
Qed.

End LogParts.

(** ** What is read from standard input is what is written *)

Section RelayFidelity.

Lemma stdin_lists_app (a b : list event) :
  stdin_reads (a ++ b) = stdin_reads a ++ stdin_reads b
  /\ stdin_writes (a ++ b) = stdin_writes a ++ stdin_writes b.
Proof. split; apply flat_map_app. Qed.

Lemma stdin_lists_nil (l : list event) :
  Forall (fun e => ~ stdin_event e) l ->
  stdin_reads l = [] /\ stdin_writes l = [].
Proof.
  induction 1 as [|e l He _ [IH1 IH2]]; [split; reflexivity|].
  unfold stdin_reads, stdin_writes in *. cbn [flat_map].
  rewrite IH1, IH2.
  destruct e as [| | |s [] data r|len [d|]| | | | | |];
    try (split; reflexivity); exfalso; apply He; exact I.
Qed.

Lemma relay_trace_chunks socket t l r :
  relay_trace socket t l r -> stdin_writes l = stdin_reads l.
Proof.
  induction 1; try reflexivity.
  unfold stdin_reads, stdin_writes in *. cbn [flat_map app].
  now f_equal.
Qed.

Lemma session_chunks socket port argv envp w rs w1 l :
  session socket port argv envp w = (rs, w1, l) ->
  stdin_writes l = stdin_reads l.
Proof.
  intros Es.
  destruct (session_log_parts _ _ _ _ _ _ _ _ Es)
    as (l1 & l2 & l3 & -> & H1 & H2 & H3).
  assert (E1 : stdin_reads l1 = [] /\ stdin_writes l1 = []).
  { apply stdin_lists_nil. eapply Forall_impl; [|exact H1].
    intros [| | |? [] ? ?| | | | | | |]; simpl; tauto. }
  assert (E2 : stdin_writes l2 = stdin_reads l2).
  { destruct H2 as [->|[rl Ht]]; [reflexivity|].
    exact (relay_trace_chunks _ _ _ _ Ht). }
  assert (E3 : stdin_reads l3 = [] /\ stdin_writes l3 = []).
  { destruct H3 as [->|(res & reply & -> & Hr)]; [split; reflexivity|].
    assert (Er : stdin_reads reply = [] /\ stdin_writes reply = []).
    { apply stdin_lists_nil. eapply Forall_impl; [|exact Hr].
      intros [| | |? [] ? ?| | | | | | |]; simpl; tauto. }
    unfold stdin_reads, stdin_writes in *. cbn [flat_map app]. exact Er. }
  destruct E1 as [R1 W1], E3 as [R3 W3].
  destruct (stdin_lists_app l1 (l2 ++ l3)) as [-> ->].
  destruct (stdin_lists_app l2 l3) as [-> ->].
  now rewrite R1, W1, R3, W3, E2.
Qed.

End RelayFidelity.

(** X8.  In every run, whether it succeeds or fails, the chunks handed to
    [writeSocket] by the relay are the chunks the reads of standard input
    have delivered, the same bytes in the same order: none is dropped,
    repeated or changed, and nothing else is written as standard input. *)
Theorem stdin_written_as_read (argv envp : list bytes) (w : world) :
  stdin_writes (snd (main argv envp w)) = stdin_reads (snd (main argv envp w)).
Proof.
  destruct (main_log_parts argv envp w)
    as [Hshort|(fd & port & rs & w1 & l & closing & _ & Es & -> & Hclosing)].
  - assert (E : stdin_reads (snd (main argv envp w)) = []
                /\ stdin_writes (snd (main argv envp w)) = []).
    { apply stdin_lists_nil. eapply Forall_impl; [|exact Hshort].
      intros [|[]| | | | | | | | |]; simpl; tauto. }
    destruct E as [-> ->]. reflexivity.
  - assert (Ec : stdin_reads closing = [] /\ stdin_writes closing = []).
    { destruct Hclosing as [(-> & _)|(-> & _)]; split; reflexivity. }
    destruct Ec as [Rc Wc].
    destruct (stdin_lists_app
                [EvInitializeNetwork 0; EvOpenSocket (Handle fd)]
                (l ++ closing)) as [-> ->].
    destruct (stdin_lists_app l closing) as [-> ->].
    rewrite Rc, Wc, (session_chunks _ _ _ _ _ _ _ _ Es). reflexivity.
Qed.

(** ** The socket and the network layer *)

Section SocketUse.

Lemma relayOutput_logs_on (P : event -> Prop) socket :
  (forall len r, P (EvRecv socket len r)) ->
  (forall text, P (EvStdout text)) ->
  (forall text, P (EvStderr text)) ->
  (forall msg, P (EvSocketError msg)) ->
  logs P (relayOutput socket).
Proof.
  intros Hrecv Hout Herr Hsock.
  assert (Hpay : forall fuel len acc,
             logs P (readPayload fuel socket len acc)).
  { induction fuel as [|fuel IH]; intros len acc; cbn [readPayload];
      unfold printSocketError; logs_tac; auto. }
  assert (Hread : forall size, logs P (readDelimitedString socket size)).
  { intros size. unfold readDelimitedString, fprintf_stderr, printSocketError.
    logs_tac; auto. }
  unfold relayOutput, fprintf_stderr, fprintf_stdout.
  logs_tac; auto.
Qed.

Lemma session_uses_socket socket port argv envp :
  logs (fun e => forall s, uses_socket e s -> s = socket)
    (session socket port argv envp).
Proof.
  set (P := fun e => forall s, uses_socket e s -> s = socket).
  assert (HW : forall at_ name str,
             logs P (WRITE_STRING_OR_EXIT socket at_ name str)).
  { intros. apply logs_WRITE_STRING_OR_EXIT; unfold P; simpl.
    - intros _ _ s E. now symmetry.
    - intros _ s []. }
  assert (Hargs : forall args, logs P (sendArgumentList socket args)).
  { induction args as [|a args IH]; cbn [sendArgumentList]; logs_tac;
      apply HW. }
  assert (Henv : forall arr count idx,
             logs P (sendEnvVars socket arr idx count)).
  { induction count as [|count IH]; intros idx; cbn [sendEnvVars];
      logs_tac; try apply HW; try apply IH. }
  assert (Hloop : forall fuel total,
             logs P (relayStdinLoop fuel socket total)).
  { induction fuel as [|fuel IH]; intros total; cbn [relayStdinLoop];
      unfold fprintf_stderr, printSocketError; logs_tac; try apply IH;
      unfold P; simpl; intros s E; first [now symmetry | contradiction]. }
  unfold session, handshake, sendArguments, sendEnvironment, relayStdin,
    printSocketError.
  logs_tac; try apply HW; try apply Hargs; try apply Henv;
    try (unfold P; simpl; intros s E; first [now symmetry | contradiction]).
  - intros w. apply Hloop.
  - apply relayOutput_logs_on; unfold P; simpl; try tauto.
    intros len r s E. now symmetry.
Qed.

End SocketUse.

(** X9.  In every run, each connect, write, read and close is an operation
    on the one socket [openSocket] has returned, and that socket is valid:
    nothing is ever done with [INVALID_SOCKET] or with another handle. *)
Theorem only_the_opened_socket_is_used
    (argv envp : list bytes) (w : world) (e : event) (s : SOCKET) :
  In e (snd (main argv envp w)) ->
  uses_socket e s ->
  s = w_openSocket w /\ s <> INVALID_SOCKET.
Proof.
  intros Hin Huse.
  destruct (main_log_parts argv envp w)
    as [Hshort|(fd & port & rs & w1 & l & closing & Eo & Es & El & Hclosing)].
  - rewrite Forall_forall in Hshort. specialize (Hshort e Hin).
    destruct e as [|[]| | | | | | | | |]; destruct Hshort; destruct Huse.
  - rewrite El in Hin. rewrite Eo.
    assert (Hs : s = Handle fd).
    { apply in_app_or in Hin. destruct Hin as [Hin|Hin].
      - destruct Hin as [<-|[<-|[]]]; destruct Huse.
      - apply in_app_or in Hin. destruct Hin as [Hin|Hin].
        + pose proof (session_uses_socket (Handle fd) port argv envp w) as Hl.
          rewrite Es in Hl. cbn [snd] in Hl. rewrite Forall_forall in Hl.
          exact (Hl e Hin s Huse).
        + destruct Hclosing as [(-> & _)|(-> & _)]; [|destruct Hin].
          destruct Hin as [<-|[<-|[]]]; [now symmetry | destruct Huse]. }
    subst s. split; [reflexivity | discriminate].
Qed.

Lemma only_the_opened_socket_is_used_witness :
  Handle 3 = w_openSocket (mkWorld 0 (Handle 3) (-1) [] [] [])
  /\ Handle 3 <> INVALID_SOCKET.
Proof.
  apply (only_the_opened_socket_is_used [lit "git"]
           [lit "DESKTOP_PORT=1234"] (mkWorld 0 (Handle 3) (-1) [] [] [])
           (EvConnect (Handle 3) 1234 (-1)) (Handle 3)).
  - vm_compute. right. right. left. reflexivity.
  - reflexivity.
Defined.

(** X10.  The network layer is initialised first.  When that fails, [main]
    returns 1 at once: nothing is printed, no socket is opened and
    [terminateNetwork] is not called.  When it succeeds and [main] returns,
    [terminateNetwork] is the last thing done, and it is called once. *)
Theorem network_layer_lifecycle (argv envp : list bytes) (w : world) :
  (w_initializeNetwork w <> 0 ->
   main argv envp w
   = (Stop (Return 1), w, [EvInitializeNetwork (w_initializeNetwork w)]))
  /\ (w_initializeNetwork w = 0 ->
      exit_code (fst (fst (main argv envp w))) <> None ->
      exists middle,
        snd (main argv envp w)
        = EvInitializeNetwork 0 :: middle ++ [EvTerminateNetwork]
        /\ Forall (fun e => ~ network_event e) middle).
Proof.
  split.
  - intros Hne. rewrite main_eq.
    destruct (Z.eqb_spec (w_initializeNetwork w) 0); [contradiction|].
    reflexivity.
  - intros E0 Hexit. rewrite main_eq in *. rewrite E0 in *.
    cbn [Z.eqb negb] in *.
    destruct (getenv DESKTOP_PORT envp) as [portString|].
    2:{ eexists [_]. split; [reflexivity|]. repeat constructor. simpl. tauto. }
    destruct (w_openSocket w) as [|fd].
    { eexists [_; _]. split; [reflexivity|].
      repeat constructor; simpl; tauto. }
    pose proof (session_logs (Handle fd) (to_ushort (atoi portString))
                  argv envp w) as Hl.
    destruct (session _ _ _ _ w) as [[rs w1] l]. cbn [snd] in Hl.
    assert (Hm : Forall (fun e => ~ network_event e)
                   (EvOpenSocket (Handle fd) :: l ++ [EvClose (Handle fd)])).
    { constructor; [simpl; tauto|]. apply Forall_app. split.
      - eapply Forall_impl; [|exact Hl].
        intros [| | | | | | | | | |]; simpl; tauto.
      - repeat constructor. simpl. tauto. }
    destruct rs as [code|[code| | |]]; cbn [fst snd] in *;
      try (exfalso; apply Hexit; reflexivity);
      (exists (EvOpenSocket (Handle fd) :: l ++ [EvClose (Handle fd)]);
       split; [|exact Hm]);
      cbn [app]; rewrite <- app_assoc; reflexivity.
Qed.

(** X11.  Failures before anything is sent.  With the port configured and
    the network layer initialised: when no socket can be had, [main] reports
    it and returns 1 without closing anything; when the connection fails,
    [main] reports it with the port, closes the socket and returns 1, and
    not one byte has been written or read. *)
Theorem failure_before_first_write
    (argv envp : list bytes) (w : world) (value : bytes) :
  w_initializeNetwork w = 0 ->
  getenv DESKTOP_PORT envp = Some value ->
  (w_openSocket w = INVALID_SOCKET ->
   main argv envp w
   = (Stop (Return 1), w,
      [EvInitializeNetwork 0; EvOpenSocket INVALID_SOCKET;
       EvSocketError (lit "ERROR: Couldn't create TCP socket");
       EvTerminateNetwork]))
  /\ (forall fd,
        w_openSocket w = Handle fd ->
        w_connectSocket w <> 0 ->
        main argv envp w
        = (Stop (Return 1), w,
           [EvInitializeNetwork 0; EvOpenSocket (Handle fd);
            EvConnect (Handle fd) (to_ushort (atoi value))
              (w_connectSocket w);
            EvSocketError
              (lit "ERROR: Couldn't connect to 127.0.0.1:"
                 ++ decimal (to_ushort (atoi value)));
            EvClose (Handle fd); EvTerminateNetwork])).
Proof.
  intros E0 Eport. split.
  - intros Eo. rewrite main_eq, E0, Eport, Eo. reflexivity.
  - intros fd Eo Hne.
    rewrite main_eq, E0, Eport, Eo. cbn [Z.eqb negb].
    rewrite session_eq.
    unfold handshake. unfold bind at 1. unfold connectSocket at 1.
    destruct (Z.eqb_spec (w_connectSocket w) 0); [contradiction|].
    reflexivity.
Qed.

Lemma failure_before_first_write_witness :
  main [lit "git"; lit "status"] [lit "DESKTOP_PORT=1234"]
    (mkWorld 0 (Handle 3) (-1) [] [] [])
  = (Stop (Return 1), mkWorld 0 (Handle 3) (-1) [] [] [],
     [EvInitializeNetwork 0; EvOpenSocket (Handle 3);
      EvConnect (Handle 3) (to_ushort (atoi (lit "1234"))) (-1);
      EvSocketError
        (lit "ERROR: Couldn't connect to 127.0.0.1:"
           ++ decimal (to_ushort (atoi (lit "1234"))));
      EvClose (Handle 3); EvTerminateNetwork]).
Proof.
  refine (proj2 (failure_before_first_write [lit "git"; lit "status"]
                   [lit "DESKTOP_PORT=1234"]
                   (mkWorld 0 (Handle 3) (-1) [] [] [])
                   (lit "1234") _ _) 3 _ _).
  - reflexivity.
  - reflexivity.
  - reflexivity.
  - discriminate.
Defined.

(** ** Standard input is forwarded whole *)

Section RelayForward.

Lemma buffer_length_pos : (0 < BUFFER_LENGTH)%nat.
Proof. unfold BUFFER_LENGTH. lia. Qed.

Lemma writes_succeed_hd w : writes_succeed w -> hd 0 (w_writeSocket w) = 0.
Proof.
  unfold writes_succeed. destruct (w_writeSocket w) as [|r rs]; [reflexivity|].
  intros H. inversion H; subst. reflexivity.
Qed.

Lemma writes_succeed_tl w :
  writes_succeed w -> Forall (fun r => r = 0) (tl (w_writeSocket w)).
Proof.
  unfold writes_succeed. destruct (w_writeSocket w) as [|r rs]; [constructor|].
  intros H. inversion H; subst. assumption.
Qed.

Lemma stdin_writes_turn len got s data r l :
  stdin_writes (EvReadStdin len got :: EvWrite s SiteStdin data r :: l)
  = data :: stdin_writes l.
Proof. reflexivity. Qed.

Lemma source_bytes_cons data src :
  source_bytes (RdData data :: src) = data ++ source_bytes src.
Proof. reflexivity. Qed.

(** One turn of the loop when the read delivers and the write succeeds. *)
Lemma relayStdinLoop_turn socket fuel t w buffer rest :
  take (w_stdin w) BUFFER_LENGTH = (Some buffer, rest) ->
  hd 0 (w_writeSocket w) = 0 ->
  relayStdinLoop (S fuel) socket t w
  = (let '(r, w', l) :=
       if (0 <? length buffer)%nat
       then relayStdinLoop fuel socket
              (size_add t (Z.of_nat (length buffer))) (after_chunk w rest)
       else (Val tt, after_chunk w rest, [])
     in (r, w',
         EvReadStdin BUFFER_LENGTH (Some buffer)
         :: EvWrite socket SiteStdin buffer 0 :: l)).
Proof.
  intros Et Hw. cbn [relayStdinLoop].
  unfold bind at 1. unfold readStdin at 1. rewrite Et.
  unfold bind at 1. unfold writeSocket at 1.
  cbn [w_writeSocket w_initializeNetwork w_openSocket w_connectSocket
       w_stdin w_socket].
  rewrite Hw. cbn [Z.eqb negb]. fold (after_chunk w rest).
  destruct (0 <? length buffer)%nat.
  - destruct (relayStdinLoop fuel socket _ (after_chunk w rest))
      as [[r w'] l]. reflexivity.
  - reflexivity.
Qed.

Lemma relayStdinLoop_forwards socket :
  forall fuel t w,
    (source_size (w_stdin w) < fuel)%nat ->
    Forall has_data (w_stdin w) ->
    writes_succeed w ->
    exists w' chunks l,
      relayStdinLoop fuel socket t w = (Val tt, w', l)
      /\ stdin_writes l = chunks ++ [[]]
      /\ concat chunks = source_bytes (w_stdin w)
      /\ Forall (fun d => (0 < length d <= BUFFER_LENGTH)%nat) chunks
      /\ Forall (relay_ok_event socket) l
      /\ w_socket w' = w_socket w
      /\ w_stdin w' = []
      /\ writes_succeed w'.
Proof.
  induction fuel as [|fuel IH]; intros t w Hfuel Hdata Hw; [lia|].
  pose proof (writes_succeed_hd w Hw) as Hhd.
  pose proof (writes_succeed_tl w Hw) as Htl.
  destruct (w_stdin w) as [|s src] eqn:Esrc.
  - (* end of input: a read of zero bytes *)
    rewrite (relayStdinLoop_turn socket fuel t w [] []);
      [|rewrite Esrc; reflexivity | exact Hhd].
    cbn [length Nat.ltb Nat.leb].
    eexists. exists []. eexists. split; [reflexivity|].
    split; [reflexivity|]. split; [reflexivity|].
    split; [constructor|].
    split; [constructor; [reflexivity|];
            constructor; [split; reflexivity | constructor]|].
    split; [reflexivity|]. split; [reflexivity|]. exact Htl.
  - apply Forall_cons_iff in Hdata. destruct Hdata as [Hs Hsrc].
    destruct s as [|[|b bs]]; try solve [exfalso; exact Hs].
    remember (b :: bs) as chunk eqn:Ec.
    assert (Hpos : (0 < length chunk)%nat) by (subst chunk; cbn [length]; lia).
    clear b bs Ec Hs. cbn [source_size] in Hfuel.
    destruct (Nat.leb_spec (length chunk) BUFFER_LENGTH) as [Hle|Hgt].
    + (* the segment fits the buffer *)
      rewrite (relayStdinLoop_turn socket fuel t w chunk src);
        [| rewrite Esrc; cbn [take];
           apply Nat.leb_le in Hle; now rewrite Hle
         | exact Hhd].
      pose proof Hpos as Hpos'. apply Nat.ltb_lt in Hpos'. rewrite Hpos'.
      destruct (IH (size_add t (Z.of_nat (length chunk))) (after_chunk w src))
        as (w' & chunks & l & -> & Hwr & Hcat & Hlen & Hok & Hsock & Hin & Hw');
        [cbn [after_chunk w_stdin]; lia | exact Hsrc | exact Htl |].
      eexists. exists (chunk :: chunks). eexists. split; [reflexivity|].
      rewrite stdin_writes_turn, Hwr.
      cbn [after_chunk w_stdin w_socket] in Hcat, Hsock.
      cbn [concat]. rewrite Hcat.
      split; [reflexivity|]. split; [reflexivity|].
      split; [constructor; [split; assumption | exact Hlen]|].
      split; [constructor; [reflexivity|];
              constructor; [split; reflexivity | exact Hok]|].
      auto.
    + (* the segment is longer than the buffer: its first part now *)
      pose proof buffer_length_pos as Hb.
      rewrite (relayStdinLoop_turn socket fuel t w
                 (firstn BUFFER_LENGTH chunk)
                 (RdData (skipn BUFFER_LENGTH chunk) :: src));
        [| rewrite Esrc; cbn [take];
           apply Nat.leb_gt in Hgt; now rewrite Hgt
         | exact Hhd].
      assert (Hfirst : length (firstn BUFFER_LENGTH chunk) = BUFFER_LENGTH)
        by (rewrite length_firstn; lia).
      rewrite Hfirst.
      pose proof Hb as Hb'. apply Nat.ltb_lt in Hb'. rewrite Hb'.
      destruct (IH (size_add t (Z.of_nat BUFFER_LENGTH))
                  (after_chunk w (RdData (skipn BUFFER_LENGTH chunk) :: src)))
        as (w' & chunks & l & -> & Hwr & Hcat & Hlen & Hok & Hsock & Hin & Hw').
      * cbn [after_chunk w_stdin source_size]. rewrite length_skipn. lia.
      * cbn [after_chunk w_stdin]. constructor; [|exact Hsrc].
        destruct (skipn BUFFER_LENGTH chunk) as [|x xs] eqn:Esk;
          [|exact I].
        apply (f_equal (@length ascii)) in Esk.
        rewrite length_skipn in Esk. cbn [length] in Esk. lia.
      * exact Htl.
      * eexists. exists (firstn BUFFER_LENGTH chunk :: chunks). eexists.
        split; [reflexivity|].
        rewrite stdin_writes_turn, Hwr.
        cbn [after_chunk w_stdin w_socket] in Hcat, Hsock.
        cbn [concat]. rewrite Hcat.
        split; [reflexivity|].
        split; [rewrite source_bytes_cons, source_bytes_cons, app_assoc,
                  firstn_skipn; reflexivity|].
        split; [constructor; [lia | exact Hlen]|].
        split; [constructor; [reflexivity|];
                constructor; [split; reflexivity | exact Hok]|].
        auto.
Qed.

End RelayForward.

(** X12.  When standard input holds data only and every write succeeds,
    [relayStdin] forwards all of it: it writes chunks of 1 to
    [BUFFER_LENGTH] bytes which, put end to end, are the bytes of standard
    input, unchanged and in order; then a chunk of no bytes, for the read
    that met the end of the input; and the terminator byte last.  Standard
    input is left empty and the socket's incoming bytes untouched. *)
Theorem relayStdin_forwards_input (socket : SOCKET) (w : world) :
  Forall has_data (w_stdin w) ->
  writes_succeed w ->
  exists w' chunks l,
    relayStdin socket w
    = (Val tt, w', l ++ [EvWrite socket SiteTerminator [NUL] 0])
    /\ stdin_writes l = chunks ++ [[]]
    /\ concat chunks = source_bytes (w_stdin w)
    /\ Forall (fun d => (0 < length d <= BUFFER_LENGTH)%nat) chunks
    /\ w_stdin w' = [] /\ w_socket w' = w_socket w.
Proof.
  intros Hdata Hw.
  destruct (relayStdinLoop_forwards socket
              (S (source_size (w_stdin w))) 0 w (Nat.lt_succ_diag_r _)
              Hdata Hw)
    as (w1 & chunks & l & El & Hwr & Hcat & Hlen & Hok & Hsock & Hin & Hw1).
  unfold relayStdin. unfold bind at 1. rewrite El.
  unfold bind at 1. unfold writeSocket at 1. unfold ret.
  rewrite (writes_succeed_hd w1 Hw1).
  eexists. exists chunks, l. split; [now rewrite app_nil_r|].
  cbn [w_stdin w_socket]. auto 10.
Qed.

Lemma relayStdin_forwards_input_witness :
  exists w' chunks l,
    relayStdin (Handle 3)
      (mkWorld 0 (Handle 3) 0 [] [RdData (lit "user"); RdData (lit "name")] [])
    = (Val tt, w', l ++ [EvWrite (Handle 3) SiteTerminator [NUL] 0])
    /\ stdin_writes l = chunks ++ [[]]
    /\ concat chunks
       = source_bytes [RdData (lit "user"); RdData (lit "name")]
    /\ Forall (fun d => (0 < length d <= BUFFER_LENGTH)%nat) chunks
    /\ w_stdin w' = [] /\ w_socket w' = [].
Proof.
  apply (relayStdin_forwards_input (Handle 3)
           (mkWorld 0 (Handle 3) 0 []
              [RdData (lit "user"); RdData (lit "name")] [])).
  - repeat constructor.
  - constructor.
Defined.

(** ** A run in which nothing fails *)

Section SuccessfulRun.





End SuccessfulRun.



(** ** Failures are reported *)

Section Reports.

Lemma reports_never {A} (m : M A) :
  (forall w w' l, m w <> (Stop (Return 1), w', l)) -> reports m.
Proof. intros H w w' l E. destruct (H _ _ _ E). Qed.

Lemma reports_stops {A} (m : M A) :
  stops (fun st => st <> Return 1) m -> reports m.
Proof.
  intros H. apply reports_never. intros w w' l E.
  exact (H _ _ _ _ E eq_refl).
Qed.















End Reports.


